(** * Keyword-overlap retrieval of the AI Docs Chatbot backend

    A shallow embedding of [src/main.py] (the [/api/ask] endpoint and the
    helpers nested in it) together with the properties of the retrieval
    engine: tokenization, term-frequency scoring, stable ranking, top-k
    selection, snippet extraction and the failure paths of the endpoint.

    Modelling conventions.
    - A Python [str] is the list of its code points.  Code points are taken
      in the 8-bit range U+0000..U+00FF, on which [str.lower] acts character
      by character and preserves the length; [ascii] is read as such a code
      point.  No statement below relies on [str.lower] keeping a character
      outside [[a-zA-Z0-9]] outside of it, which holds on this range and
      fails beyond it (U+212A and U+0130 lowercase to ASCII letters).
    - Python [int] values that are counts are [nat]; [top_k], which the
      caller chooses freely, is a [Z].
    - A [Counter] is a finite map from tokens to counts.
    - The document store is passed explicitly as a state that also records
      every query issued against it. *)

From Stdlib Require Import Ascii String ZArith Lia.
From stdpp Require Import gmap strings list fin_maps sorting.

Set Default Proof Using "Type".
Local Open Scope Z_scope.
Local Open Scope nat_scope.

(** ** Strings *)

Abbreviation pystr := (list ascii).

(** A literal of the source, as a [pystr]. *)
Definition str (s : string) : pystr := list_ascii_of_string s.

Definition ord (c : ascii) : nat := nat_of_ascii c.

Definition in_range (lo hi n : nat) : bool := (lo <=? n) && (n <=? hi).

(** The character class [[a-zA-Z0-9]] of the tokenizer's pattern. *)
Definition is_alnum (c : ascii) : bool :=
  in_range 97 122 (ord c) || in_range 65 90 (ord c) || in_range 48 57 (ord c).

(** [\s] of a [str] pattern and the characters removed by [str.strip()]:
    both are [str.isspace], which on the 8-bit range holds of TAB..CR,
    FS..US, SPACE, NEL (U+0085) and NBSP (U+00A0). *)
Definition is_space (c : ascii) : bool :=
  in_range 9 13 (ord c) || in_range 28 32 (ord c)
  || (ord c =? 133) || (ord c =? 160).

(** [str.lower] on one code point: A..Z, and the upper-case letters
    U+00C0..U+00DE except the multiplication sign U+00D7, move up by 32. *)
Definition lower_char (c : ascii) : ascii :=
  if in_range 65 90 (ord c)
     || (in_range 192 222 (ord c) && negb (ord c =? 215))
  then ascii_of_nat (ord c + 32)
  else c.

(** [s.lower()].  The tokenizer applies it to runs of [[a-zA-Z0-9]] only,
    where it is the same on every code point range. *)
Definition lower (s : pystr) : pystr := map lower_char s.

(** [sep.join(parts)] *)
Fixpoint join (sep : pystr) (parts : list pystr) : pystr :=
  match parts with
  | [] => []
  | [p] => p
  | p :: ps => p ++ sep ++ join sep ps
  end.

(** [s.lstrip()], [s.rstrip()] and [s.strip()] *)
Fixpoint lstrip (s : pystr) : pystr :=
  match s with
  | c :: s' => if is_space c then lstrip s' else s
  | [] => []
  end.

Definition rstrip (s : pystr) : pystr := rev (lstrip (rev s)).

Definition strip (s : pystr) : pystr := rstrip (lstrip s).

(** [s.startswith(t)] *)
Fixpoint startswith (t s : pystr) : bool :=
  match t, s with
  | [], _ => true
  | _ :: _, [] => false
  | a :: t', b :: s' => bool_decide (a = b) && startswith t' s'
  end.

(** [t in s] for two strings: [t] occurs in [s] as a contiguous block. *)
Fixpoint contains (t s : pystr) : bool :=
  startswith t s ||
  match s with
  | [] => false
  | _ :: s' => contains t s'
  end.

(** ** Tokenization *)

(** [re.findall(r"[a-zA-Z0-9]+", t)]: one scan from the left; [cur] is the
    run being matched, most recent character first.  A run is extended as
    long as the class matches (the [+] is greedy) and is emitted at the
    first character outside the class or at the end of the text. *)
Definition emit (cur : pystr) : list pystr :=
  match cur with
  | [] => []
  | _ => [rev cur]
  end.

Fixpoint findall_go (cur : pystr) (t : pystr) : list pystr :=
  match t with
  | [] => emit cur
  | c :: t' =>
      if is_alnum c then findall_go (c :: cur) t'
      else emit cur ++ findall_go [] t'
  end.

Definition findall_alnum (t : pystr) : list pystr := findall_go [] t.

(** [def tokenize(t): return [w.lower() for w in re.findall(..., t)]] *)
Definition tokenize (t : pystr) : list pystr :=
  map lower (findall_alnum t).

(** ** Term-frequency scoring *)

(** [Counter(tokens)]: each token bumps its entry. *)
Definition counter_get (m : gmap pystr nat) (t : pystr) : nat :=
  default 0 (m !! t).

Definition counter_add (m : gmap pystr nat) (t : pystr) : gmap pystr nat :=
  <[t := S (counter_get m t)]> m.

Definition Counter (tokens : list pystr) : gmap pystr nat :=
  foldl counter_add ∅ tokens.

(** [sum(counts[t] for t in q_tokens)]; a key that is absent reads as 0. *)
Definition tf_score (q_tokens : list pystr) (counts : gmap pystr nat) : nat :=
  sum_list (map (counter_get counts) q_tokens).


(** ** Documents and the document store *)

(** A stored record, with the keys the endpoint reads.  A key that is absent
    from the dictionary is [None]; [_id] is the identifier in the text form
    that [str(ObjectId)] gives. *)
Record doc := {
  _id : option pystr;
  title : option pystr;
  url : option pystr;
  content : option pystr;
  tags : list pystr
}.

(** [d.get("content", "")] *)
Definition get_content (d : doc) : pystr := default [] (content d).

(** The filters the endpoints build: [{}] and [{"tags": {"$in": vals}}]. *)
Inductive query_filter :=
  | MatchAll
  | TagsIn (vals : list pystr).

Definition filter_matches (f : query_filter) (d : doc) : bool :=
  match f with
  | MatchAll => true
  | TagsIn vals => existsb (fun t => bool_decide (t ∈ vals)) (tags d)
  end.

(** One call of [get_documents], as the store sees it. *)
Record query := {
  q_collection : string;
  q_filter : query_filter;
  q_limit : nat
}.

(** The store: either unavailable (every call raises, with the given
    message) or a set of named collections, each in its natural order;
    [queries] is the history of the calls made so far, oldest first. *)
Record store := {
  backend : pystr + gmap string (list doc);
  queries : list query
}.

Definition collection (m : gmap string (list doc)) (name : string) : list doc :=
  default [] (m !! name).

(** Modelled from the spec: [database.get_documents], which is imported by
    [main.py] and not part of the sources.  Section 4.3: a filtered
    find-with-limit returning a sequence of records, stable within a query,
    with unavailability distinguishable from an empty store (here, an
    exception carrying a message). *)
Definition get_documents (name : string) (f : query_filter) (limit : nat)
    (st : store) : (pystr + list doc) * store :=
  let st' := {| backend := backend st;
                queries := queries st ++
                  [{| q_collection := name; q_filter := f; q_limit := limit |}] |} in
  match backend st with
  | inl e => (inl e, st')
  | inr m => (inr (take limit (List.filter (filter_matches f) (collection m name))), st')
  end.

(** ** Scoring loop *)

(** The body of [for d in docs:], acting on the list [scored]. *)
Definition score_step (q_tokens : list pystr) (scored : list (nat * doc))
    (d : doc) : list (nat * doc) :=
  let content := get_content d in
  let tokens := tokenize content in
  match tokens with
  | [] => scored
  | _ =>
      let counts := Counter tokens in
      let score := tf_score q_tokens counts in
      if 0 <? score then scored ++ [(score, d)] else scored
  end.

Definition score_docs (q_tokens : list pystr) (docs : list doc) : list (nat * doc) :=
  foldl (score_step q_tokens) [] docs.

(** ** Ranking and selection *)

(** [l.sort(key=key, reverse=True)].  Python's sort is stable, and with
    [reverse=True] elements with equal keys still keep their original
    order.  The result of such a sort is unique (see [stable_sort_unique]);
    it is computed here by insertion from the right, an element going in
    front of the first one whose key is not larger. *)
Fixpoint insert_desc {A} (key : A -> nat) (x : A) (l : list A) : list A :=
  match l with
  | [] => [x]
  | y :: l' => if key x <? key y then y :: insert_desc key x l' else x :: l
  end.

Definition sort_desc {A} (key : A -> nat) (l : list A) : list A :=
  foldr (insert_desc key) [] l.

(** [l[:k]] for a Python integer [k]: a negative [k] counts from the end. *)
Definition slice_to {A} (l : list A) (k : Z) : list A :=
  if (0 <=? k)%Z then take (Z.to_nat k) l
  else take (Z.to_nat (Z.of_nat (length l) + k)) l.

(** ** Snippet extraction *)

Definition is_terminator (c : ascii) : bool :=
  bool_decide (c = "."%char) || bool_decide (c = "!"%char)
  || bool_decide (c = "?"%char).

(** [(?<=[.!?])] at the current position: the character just read. *)
Definition after_terminator (cur : pystr) : bool :=
  match cur with
  | c :: _ => is_terminator c
  | [] => false
  end.

(** [re.split(r"(?<=[.!?])\s+", text)]: one scan from the left.  [cur] is
    the piece being read, most recent character first; [gap] says that the
    scan is inside a separator, which (the [+] being greedy) swallows every
    white-space character that follows. *)
Fixpoint split_go (cur : pystr) (gap : bool) (t : pystr) : list pystr :=
  match t with
  | [] => [rev cur]
  | c :: t' =>
      if is_space c then
        if gap then split_go cur true t'
        else if after_terminator cur then rev cur :: split_go [] true t'
        else split_go (c :: cur) false t'
      else split_go (c :: cur) false t'
  end.

Definition split_sentences (text : pystr) : list pystr := split_go [] false text.

(** [any(t in s_low for t in q_terms)] *)
Definition mentions (q_terms : list pystr) (s : pystr) : bool :=
  existsb (fun t => contains t (lower s)) q_terms.

(** [sum(len(x) for x in selected)] *)
Definition total_len (selected : list pystr) : nat :=
  sum_list (map length selected).

(** The loop [for s in sentences:] with its [break]. *)
Fixpoint select_go (q_terms : list pystr) (max_chars : nat)
    (selected : list pystr) (sentences : list pystr) : list pystr :=
  match sentences with
  | [] => selected
  | s :: rest =>
      let selected' :=
        if mentions q_terms s then selected ++ [strip s] else selected in
      if max_chars <? total_len selected' then selected'
      else select_go q_terms max_chars selected' rest
  end.

Definition extract_snippets (text : pystr) (q_terms : list pystr)
    (max_chars : nat) : pystr :=
  let sentences := split_sentences text in
  let selected := select_go q_terms max_chars [] sentences in
  match selected with
  | [] => take max_chars text
  | _ => take max_chars (join (str " ") selected)
  end.

(** ** The endpoint *)

Record AskRequest := {
  question : pystr;
  top_k : Z
}.

(** The JSON body before validation; [top_k] may be left out. *)
Record ask_body := {
  body_question : pystr;
  body_top_k : option Z
}.

(** [question: str = Field(..., min_length=3)] and [top_k: int = 3]. *)
Definition parse_AskRequest (b : ask_body) : option AskRequest :=
  if length (body_question b) <? 3 then None
  else Some {| question := body_question b; top_k := default 3%Z (body_top_k b) |}.

(** An entry of ["sources"]. *)
Record source := {
  source_id : option pystr;
  source_title : option pystr;
  source_url : option pystr
}.

Definition normalize_source (d : doc) : source :=
  {| source_id := _id d; source_title := title d; source_url := url d |}.

Inductive response :=
  | Ok (answer : pystr) (sources : list source)
  | HTTPException (status_code : nat) (detail : pystr)
  | RequestValidationError.

Definition status (r : response) : nat :=
  match r with
  | Ok _ _ => 200
  | HTTPException code _ => code
  | RequestValidationError => 422
  end.

Definition nl : ascii := "010"%char.

Definition msg_no_resources : pystr :=
  str "I don't have any resources yet. Please add a website or docs first.".

Definition msg_not_found : pystr :=
  str "I couldn't find information about that in the provided resources.".

Definition answer_lead : pystr :=
  str "Here's what I found based on your resources: " ++ [nl; nl].

Definition answer_trail : pystr :=
  [nl; nl] ++ str "If you'd like, you can add more sources for better answers.".

(** [scored], sorted, and [top] of the handler. *)
Definition ranked (q_tokens : list pystr) (docs : list doc) : list (nat * doc) :=
  sort_desc fst (score_docs q_tokens docs).

Definition select_top (q_tokens : list pystr) (docs : list doc) (k : Z) : list doc :=
  map snd (slice_to (ranked q_tokens docs) k).

(** The handler once the candidate set is there. *)
Definition answer_from (q : pystr) (k : Z) (docs : list doc) : response :=
  match docs with
  | [] => Ok msg_no_resources []
  | _ =>
      let q_tokens := tokenize q in
      match score_docs q_tokens docs with
      | [] => Ok msg_not_found []
      | _ =>
          let top := select_top q_tokens docs k in
          let snippets :=
            map (fun d => extract_snippets (get_content d) q_tokens 600) top in
          let combined := join (" "%char :: [nl; nl]) snippets in
          Ok (answer_lead ++ combined ++ answer_trail) (map normalize_source top)
      end
  end.

(** [def ask_question(payload: AskRequest)] *)
Definition ask_question (payload : AskRequest) (st : store) : response * store :=
  let q := strip (question payload) in
  match q with
  | [] => (HTTPException 400 (str "Empty question"), st)
  | _ =>
      match get_documents "resource" MatchAll 100 st with
      | (inl e, st') => (HTTPException 500 (str "Database error: " ++ e), st')
      | (inr docs, st') => (answer_from q (top_k payload) docs, st')
      end
  end.

(** [POST /api/ask]: the body is validated, then handled. *)
Definition post_ask (b : ask_body) (st : store) : response * store :=
  match parse_AskRequest b with
  | None => (RequestValidationError, st)
  | Some payload => ask_question payload st
  end.


(** ** The other endpoints *)

(** [raw.split()]: the maximal runs of characters that are not white
    space; [cur] is the word being read, most recent character first. *)
Fixpoint split_ws_go (cur : pystr) (t : pystr) : list pystr :=
  match t with
  | [] => emit cur
  | c :: t' =>
      if is_space c then emit cur ++ split_ws_go [] t'
      else split_ws_go (c :: cur) t'
  end.

Definition split_ws (t : pystr) : list pystr := split_ws_go [] t.

(** [" ".join(raw.split())], applied by [/api/ingest] to the text of the
    page. *)
Definition normalize_whitespace (raw : pystr) : pystr :=
  join (str " ") (split_ws raw).

(** What the handler sees of a fetched page once the parser has dropped
    the [script], [style] and [noscript] tags: [page_text] is
    [soup.get_text(separator=" ")], and [page_title] is
    [soup.title.string], [None] when there is no title tag or the tag has
    no string. *)
Record page := {
  page_text : pystr;
  page_title : option pystr
}.

Record IngestRequest := {
  req_url : pystr;
  req_title : option pystr;
  req_tags : option (list pystr)
}.

(** [payload.title or (soup.title.string.strip() if soup.title and
    soup.title.string else str(payload.url))]; [None] and the empty string
    are both false. *)
Definition choose_title (payload : IngestRequest) (pg : page) : pystr :=
  match req_title payload with
  | Some (c :: t) => c :: t
  | _ =>
      match page_title pg with
      | Some (c :: t) => strip (c :: t)
      | _ => req_url payload
      end
  end.

(** Modelled from the spec: [database.create_document], which is imported
    by [main.py] and not part of the sources.  Section 4.3:
    [createDocument(collection, record) -> id]; the identifier is assigned
    by the store ([new_id] stands for the one it picks), and an unavailable
    store raises.  The record joins its collection; the order within the
    collection is not relied upon. *)
Definition create_document (name : string) (d : doc) (new_id : pystr)
    (st : store) : (pystr + pystr) * store :=
  match backend st with
  | inl e => (inl e, st)
  | inr m =>
      let stored := {| _id := Some new_id; title := title d; url := url d;
                       content := content d; tags := tags d |} in
      (inr new_id,
       {| backend := inr (<[name := collection m name ++ [stored]]> m);
          queries := queries st |})
  end.

Inductive ingest_response :=
  | IngestOk (id : pystr) (title : pystr) (length : nat)
  | IngestError (status_code : nat) (detail : pystr).

(** [def ingest_resource(payload: IngestRequest)].  [fetched] is the outcome
    of [requests.get] and [raise_for_status]: the message of the exception,
    or the page. *)
Definition ingest_resource (payload : IngestRequest) (fetched : pystr + page)
    (new_id : pystr) (st : store) : ingest_response * store :=
  match fetched with
  | inl e => (IngestError 400 (str "Failed to fetch URL: " ++ e), st)
  | inr pg =>
      let text := normalize_whitespace (page_text pg) in
      let title := choose_title payload pg in
      let d := {| _id := None; title := Some title;
                  url := Some (req_url payload); content := Some text;
                  tags := default [] (req_tags payload) |} in
      match create_document "resource" d new_id st with
      | (inl e, st') => (IngestError 500 (str "Database error: " ++ e), st')
      | (inr doc_id, st') => (IngestOk doc_id title (length text), st')
      end
  end.

(** ** Specification-level notions

    The definitions below do not come from the code: they spell out the
    words of the specification, and the theorems compare them with the
    definitions above. *)

(** "Maximal runs of ASCII letters and digits; all other characters are
    separators": the text is a separator, then a non-empty run that is not
    followed by a character of the class, and so on. *)
Definition starts_outside (P : ascii -> bool) (s : pystr) : Prop :=
  match s with
  | [] => True
  | c :: _ => P c = false
  end.

Inductive maximal_runs : pystr -> list pystr -> Prop :=
  | runs_end sep :
      Forall (fun c => is_alnum c = false) sep ->
      maximal_runs sep []
  | runs_cons sep run rest runs :
      Forall (fun c => is_alnum c = false) sep ->
      run <> [] ->
      Forall (fun c => is_alnum c = true) run ->
      starts_outside is_alnum rest ->
      maximal_runs rest runs ->
      maximal_runs (sep ++ run ++ rest) (run :: runs).

(** "That token's occurrence count in the document". *)
Definition occurrences (t : pystr) (tokens : list pystr) : nat :=
  length (List.filter (fun w => bool_decide (w = t)) tokens).

(** "The sum, over each token appearing in the question's token sequence,
    of that token's occurrence count in the document". *)
Definition overlap (q_tokens tokens : list pystr) : nat :=
  sum_list (map (fun t => occurrences t tokens) q_tokens).

(** What the scoring paragraph says of one candidate: skipped when it has
    no token, left out when it scores zero, ranked with its score
    otherwise. *)
Definition rank_entry (q_tokens : list pystr) (d : doc) : option (nat * doc) :=
  let tokens := tokenize (get_content d) in
  match tokens with
  | [] => None
  | _ => if 0 <? overlap q_tokens tokens then Some (overlap q_tokens tokens, d)
         else None
  end.

(** The number of candidates with a score above zero. *)
Definition positives (q_tokens : list pystr) (docs : list doc) : nat :=
  length (List.filter
            (fun d => 0 <? overlap q_tokens (tokenize (get_content d))) docs).

(** "A sentence ends at [.], [!] or [?] followed by whitespace": inside a
    sentence no terminator is followed by white space; between two
    sentences lies a non-empty stretch of white space that comes right
    after a terminator and reaches up to the next other character. *)
Definition boundary_free (s : pystr) : Prop :=
  forall a c w b, s = a ++ c :: w :: b ->
    is_terminator c = true -> is_space w = true -> False.

Definition ends_with_terminator (s : pystr) : Prop :=
  exists s0 c, s = s0 ++ [c] /\ is_terminator c = true.

Inductive sentences_of : pystr -> list pystr -> Prop :=
  | sentences_last s :
      boundary_free s ->
      sentences_of s [s]
  | sentences_cons s gap rest l :
      boundary_free s ->
      ends_with_terminator s ->
      gap <> [] ->
      Forall (fun c => is_space c = true) gap ->
      starts_outside is_space rest ->
      sentences_of rest l ->
      sentences_of (s ++ gap ++ rest) (s :: l).

(** "Accumulate selected sentences, stopping once the running total of
    accumulated sentence lengths exceeds [max_chars]". *)
Fixpoint accumulate (max_chars total : nat) (l : list pystr) : list pystr :=
  match l with
  | [] => []
  | s :: l' =>
      s :: (if max_chars <? total + length s then []
            else accumulate max_chars (total + length s) l')
  end.

(** The sources of a response; an error response carries none. *)
Definition sources_of (r : response) : list source :=
  match r with
  | Ok _ sources => sources
  | _ => []
  end.

(** The case of ASCII letters, the only letters a token can hold: [A-Z]
    moved to [a-z], every other character left alone.  Two texts that
    differ only in the case of ASCII letters have the same image. *)
Definition ascii_lower_char (c : ascii) : ascii :=
  if in_range 65 90 (ord c) then ascii_of_nat (ord c + 32) else c.

Definition fold_ascii_case (s : pystr) : pystr := map ascii_lower_char s.

(** What a token is: a non-empty string of letters and digits. *)
Definition token_like (w : pystr) : Prop :=
  w <> [] /\ Forall (fun c => is_alnum c = true) w.

(** "Sort by score descending": every entry has a key at least as large as
    the ones after it; [has_key] picks the entries of one key, whose
    relative order a stable sort keeps. *)
Definition desc_by {A} (key : A -> nat) (x y : A) : Prop := key y <= key x.

Definition has_key {A} (key : A -> nat) (k : nat) (x : A) : bool := key x =? k.

Definition by_score_desc (x y : nat * doc) : Prop := desc_by fst x y.

(** The candidate set of one call of [/api/ask]: what the query with the
    empty filter and the limit 100 gives on the collection ["resource"]. *)
Definition candidates (st : store) : list doc :=
  match backend st with
  | inl _ => []
  | inr m => take 100 (collection m "resource")
  end.

(** The query [/api/ask] issues, and the store after it. *)
Definition ask_query : query :=
  {| q_collection := "resource"; q_filter := MatchAll; q_limit := 100 |}.

Definition after_query (st : store) : store :=
  {| backend := backend st; queries := queries st ++ [ask_query] |}.

(** The store with every document after the first 100 of ["resource"]
    removed. *)
Definition truncate_store (st : store) : store :=
  {| backend :=
       match backend st with
       | inl e => inl e
       | inr m => inr (<["resource"%string := take 100 (collection m "resource")]> m)
       end;
     queries := queries st |}.

(** The characters a token is made of: [a-z] and [0-9]. *)
Definition is_lower_alnum (c : ascii) : bool :=
  in_range 97 122 (ord c) || in_range 48 57 (ord c).

(** A word of [split()]: non-empty and free of white space. *)
Definition word_like (w : pystr) : Prop :=
  w <> [] /\ Forall (fun c => is_space c = false) w.

(** The documents of the collection ["resource"]; none when the store is
    unavailable. *)
Definition resources (st : store) : list doc :=
  match backend st with
  | inl _ => []
  | inr m => collection m "resource"
  end.

(** The score of a candidate, as the loop computes it. *)
Definition doc_score (q_tokens : list pystr) (d : doc) : nat :=
  tf_score q_tokens (Counter (tokenize (get_content d))).

(** Text whose white space is reduced to single plain spaces between other
    characters. *)
Definition single_spaced (s : pystr) : Prop :=
  forall a c b, s = a ++ c :: b -> is_space c = true ->
    c = " "%char /\
    (exists a' x, a = a' ++ [x] /\ is_space x = false) /\
    (exists y b', b = y :: b' /\ is_space y = false).

(** ** Concrete inputs *)

Definition doc_of_text (text : string) : doc :=
  {| _id := None; title := None; url := None; content := Some (str text);
     tags := [] |}.

Definition store_of (docs : list doc) : store :=
  {| backend := inr {[ "resource"%string := docs ]}; queries := [] |}.

Definition rust_book : doc :=
  {| _id := Some (str "65f0c0ffee"); title := Some (str "Rust Book"); url := None;
     content := Some (str "Rust is a systems programming language. It guarantees memory safety.");
     tags := [] |}.

Definition rust_notes : doc :=
  {| _id := Some (str "65f0c0ffef"); title := Some (str "Rust notes"); url := None;
     content := Some (str "Notes on Rust. Rust has traits.");
     tags := [] |}.

Definition cooking : doc :=
  {| _id := Some (str "65f0c0fff0"); title := Some (str "Cooking"); url := None;
     content := Some (str "Boil the pasta. Add salt!");
     tags := [] |}.

Definition two_rust_docs : store := store_of [rust_book; rust_notes].

Definition ask_rust (k : option Z) : ask_body :=
  {| body_question := str "what is rust"; body_top_k := k |}.

(** * Properties *)

(** ** Characters *)

Ltac by_cases_on_char c :=
  destruct c as [[|] [|] [|] [|] [|] [|] [|] [|]]; vm_compute; try reflexivity;
  try discriminate; auto.

Lemma is_alnum_lower_char c :
  is_alnum c = true -> is_alnum (lower_char c) = true.
Proof. by_cases_on_char c. Qed.

Lemma is_alnum_ascii_lower_char c :
  is_alnum (ascii_lower_char c) = is_alnum c.
Proof. by_cases_on_char c. Qed.

Lemma lower_char_ascii_lower_char c :
  lower_char (ascii_lower_char c) = lower_char c.
Proof. by_cases_on_char c. Qed.

Lemma lower_char_idem c : lower_char (lower_char c) = lower_char c.
Proof. by_cases_on_char c. Qed.

Lemma is_space_not_alnum c : is_space c = true -> is_alnum c = false.
Proof. by_cases_on_char c. Qed.

Lemma lower_idem s : lower (lower s) = lower s.
Proof.
  unfold lower. rewrite map_map. apply map_ext. intros c. apply lower_char_idem.
Qed.

Lemma lower_app s1 s2 : lower (s1 ++ s2) = lower s1 ++ lower s2.
Proof. apply map_app. Qed.

Lemma lower_fold_ascii_case s : lower (fold_ascii_case s) = lower s.
Proof.
  unfold lower, fold_ascii_case. rewrite map_map. apply map_ext.
  intros c. apply lower_char_ascii_lower_char.
Qed.

(** ** Tokenization *)

Lemma emit_fold_ascii_case cur :
  emit (fold_ascii_case cur) = map fold_ascii_case (emit cur).
Proof.
  destruct cur as [|c cur]; [done|].
  change ([rev (fold_ascii_case (c :: cur))] = [fold_ascii_case (rev (c :: cur))]).
  unfold fold_ascii_case. by rewrite map_rev.
Qed.

Lemma findall_go_fold_ascii_case cur t :
  findall_go (fold_ascii_case cur) (fold_ascii_case t) =
  map fold_ascii_case (findall_go cur t).
Proof.
  revert cur. induction t as [|c t IH]; intros cur; simpl.
  - apply emit_fold_ascii_case.
  - rewrite is_alnum_ascii_lower_char. destruct (is_alnum c).
    + apply (IH (c :: cur)).
    + rewrite map_app, <- emit_fold_ascii_case. f_equal. apply (IH []).
Qed.

Lemma tokenize_fold_ascii_case t : tokenize (fold_ascii_case t) = tokenize t.
Proof.
  unfold tokenize, findall_alnum.
  change (findall_go [] (fold_ascii_case t))
    with (findall_go (fold_ascii_case []) (fold_ascii_case t)).
  rewrite findall_go_fold_ascii_case, map_map.
  apply map_ext. intros w. apply lower_fold_ascii_case.
Qed.

Lemma tokenize_same_ascii_case t t' :
  fold_ascii_case t' = fold_ascii_case t -> tokenize t' = tokenize t.
Proof.
  intros E. by rewrite <- (tokenize_fold_ascii_case t'), E, tokenize_fold_ascii_case.
Qed.

Lemma findall_go_run run cur rest :
  Forall (fun c => is_alnum c = true) run ->
  findall_go cur (run ++ rest) = findall_go (rev run ++ cur) rest.
Proof.
  intros H. revert cur. induction H as [|c run Hc _ IH]; intros cur; simpl.
  - done.
  - rewrite Hc, IH. by rewrite <- app_assoc.
Qed.

Lemma findall_go_sep sep rest :
  Forall (fun c => is_alnum c = false) sep ->
  findall_go [] (sep ++ rest) = findall_go [] rest.
Proof. induction 1 as [|c sep Hc _ IH]; simpl; [done|]. by rewrite Hc. Qed.

Lemma findall_go_outside cur rest :
  starts_outside is_alnum rest ->
  findall_go cur rest = emit cur ++ findall_go [] rest.
Proof.
  destruct rest as [|c rest]; simpl.
  - intros _. by rewrite app_nil_r.
  - by intros ->.
Qed.

Lemma maximal_runs_sep c t runs :
  is_alnum c = false -> maximal_runs t runs -> maximal_runs (c :: t) runs.
Proof.
  intros Hc H. destruct H as [sep Hsep | sep run rest runs Hsep Hne Hrun Hrest H].
  - apply runs_end. by constructor.
  - change (maximal_runs ((c :: sep) ++ run ++ rest) (run :: runs)).
    apply runs_cons; auto.
Qed.

Lemma maximal_runs_here run rest runs :
  run <> [] ->
  Forall (fun c => is_alnum c = true) run ->
  starts_outside is_alnum rest ->
  maximal_runs rest runs ->
  maximal_runs (run ++ rest) (run :: runs).
Proof. intros. apply (runs_cons [] run rest runs); auto. Qed.

Lemma rev_cons_not_nil {A} (x : A) l : rev (x :: l) <> [].
Proof. simpl. intros E. by apply app_eq_nil in E as [_ ?]. Qed.

Lemma findall_go_runs cur t :
  Forall (fun c => is_alnum c = true) cur ->
  maximal_runs (rev cur ++ t) (findall_go cur t).
Proof.
  revert cur. induction t as [|c t IH]; intros cur Hcur.
  - destruct cur as [|c cur].
    + apply (runs_end []). constructor.
    + apply maximal_runs_here.
      * apply rev_cons_not_nil.
      * by apply Forall_rev.
      * exact I.
      * apply (runs_end []). constructor.
  - cbn [findall_go]. destruct (is_alnum c) eqn:Hc.
    + replace (rev cur ++ c :: t) with (rev (c :: cur) ++ t)
        by (simpl; by rewrite <- app_assoc).
      apply IH. by constructor.
    + assert (Ht : maximal_runs (c :: t) (findall_go [] t)).
      { apply maximal_runs_sep; [done|]. apply (IH []). constructor. }
      destruct cur as [|c' cur]; [exact Ht|].
      apply maximal_runs_here; auto.
      * apply rev_cons_not_nil.
      * by apply Forall_rev.
Qed.

Lemma emit_rev run : run <> [] -> emit (rev run) = [run].
Proof.
  intros Hne. destruct (rev run) as [|c cur] eqn:E.
  - apply (f_equal (@rev _)) in E. rewrite rev_involutive in E. done.
  - cbn [emit]. by rewrite <- E, rev_involutive.
Qed.

Lemma maximal_runs_findall t runs :
  maximal_runs t runs <-> runs = findall_alnum t.
Proof.
  split.
  - unfold findall_alnum.
    induction 1 as [sep Hsep | sep run rest runs Hsep Hne Hrun Hrest _ IH].
    + rewrite <- (app_nil_r sep), findall_go_sep by done. done.
    + rewrite findall_go_sep, findall_go_run, app_nil_r by done.
      rewrite findall_go_outside by done.
      by rewrite <- IH, emit_rev.
  - intros ->. apply (findall_go_runs [] t). constructor.
Qed.

Lemma maximal_runs_token_like t runs :
  maximal_runs t runs -> Forall token_like runs.
Proof.
  induction 1 as [|sep run rest runs _ Hne Hrun _ _ IH]; constructor; auto.
  by split.
Qed.

Lemma findall_alnum_token_like t : Forall token_like (findall_alnum t).
Proof. apply (maximal_runs_token_like t). by apply maximal_runs_findall. Qed.

Lemma token_like_lower w : token_like w -> token_like (lower w).
Proof.
  intros [Hne Hw]. split.
  - destruct w; [done|discriminate].
  - unfold lower. apply Forall_map. eapply Forall_impl; [exact Hw|].
    intros c Hc. simpl. by apply is_alnum_lower_char.
Qed.

Lemma tokenize_token_like t : Forall token_like (tokenize t).
Proof.
  unfold tokenize. apply Forall_map.
  eapply Forall_impl; [apply findall_alnum_token_like|].
  intros w. apply token_like_lower.
Qed.

Lemma tokenize_lowercase t : Forall (fun w => lower w = w) (tokenize t).
Proof.
  unfold tokenize. apply Forall_map, Forall_forall. intros w _. apply lower_idem.
Qed.

Lemma findall_alnum_token w :
  token_like w -> forall rest, starts_outside is_alnum rest ->
  findall_alnum (w ++ rest) = w :: findall_alnum rest.
Proof.
  intros [Hne Hw] rest Hrest. unfold findall_alnum.
  rewrite findall_go_run, app_nil_r by done.
  rewrite findall_go_outside by done.
  by rewrite emit_rev.
Qed.

Lemma findall_alnum_join ws :
  Forall token_like ws -> findall_alnum (join (str " ") ws) = ws.
Proof.
  induction 1 as [|w ws Hw Hws IH]; [done|].
  destruct ws as [|w' ws].
  - cbn [join]. rewrite <- (app_nil_r w) at 1.
    by rewrite findall_alnum_token.
  - change (join (str " ") (w :: w' :: ws))
      with (w ++ " "%char :: join (str " ") (w' :: ws)).
    rewrite findall_alnum_token by done.
    f_equal. exact IH.
Qed.

Lemma tokenize_join_tokens toks :
  Forall token_like toks -> Forall (fun w => lower w = w) toks ->
  tokenize (join (str " ") toks) = toks.
Proof.
  intros Hw Hl. unfold tokenize. rewrite findall_alnum_join by done.
  induction Hl as [|w toks E _ IH]; [done|].
  inversion Hw; subst. simpl. rewrite E. f_equal. auto.
Qed.

(** C6.  The tokenizer returns the maximal runs of ASCII letters and digits
    of its argument, each lowercased, and no other sequence of runs fits the
    text; it is case-insensitive: two texts that differ only in the case of
    ASCII letters, the only letters a token can hold, have the same tokens,
    and so has a text with its ASCII letters put in lower case; tokenizing
    the tokens joined by single spaces gives the tokens back; and
    [tokenize("Cat DOG") == ["cat", "dog"]]. *)
Theorem tokenize_maximal_runs_idempotent (t : pystr) :
  (exists runs, maximal_runs t runs /\ tokenize t = map lower runs) /\
  (forall runs, maximal_runs t runs <-> runs = findall_alnum t) /\
  (forall t', fold_ascii_case t' = fold_ascii_case t -> tokenize t' = tokenize t) /\
  tokenize (fold_ascii_case t) = tokenize t /\
  Forall (fun w => lower w = w) (tokenize t) /\
  tokenize (join (str " ") (tokenize t)) = tokenize t /\
  tokenize (str "Cat DOG") = [str "cat"; str "dog"] /\
  tokenize (str "cAT dog") = tokenize (str "Cat DOG").
Proof.
  split; [|split; [|split; [|split; [|split; [|split; [|split]]]]]].
  - exists (findall_alnum t). split; [|done]. by apply maximal_runs_findall.
  - intros runs. apply maximal_runs_findall.
  - intros t'. apply tokenize_same_ascii_case.
  - apply tokenize_fold_ascii_case.
  - apply tokenize_lowercase.
  - apply tokenize_join_tokens.
    + apply tokenize_token_like.
    + apply tokenize_lowercase.
  - reflexivity.
  - reflexivity.
Qed.

(** ** Scoring *)

Lemma occurrences_cons w x l :
  occurrences w (x :: l) = (if bool_decide (x = w) then 1 else 0) + occurrences w l.
Proof. unfold occurrences. simpl. by destruct (bool_decide (x = w)). Qed.

Lemma counter_get_add m t w :
  counter_get (counter_add m t) w =
  (if bool_decide (t = w) then 1 else 0) + counter_get m w.
Proof.
  unfold counter_add, counter_get at 1. rewrite lookup_insert.
  case_bool_decide as E; case_decide; try done.
  subst. simpl. done.
Qed.

Lemma counter_get_foldl l m w :
  counter_get (foldl counter_add m l) w = counter_get m w + occurrences w l.
Proof.
  revert m. induction l as [|x l IH]; intros m; simpl.
  - unfold occurrences. simpl. lia.
  - rewrite IH, counter_get_add, occurrences_cons. lia.
Qed.

Lemma counter_get_Counter tokens w :
  counter_get (Counter tokens) w = occurrences w tokens.
Proof. unfold Counter. rewrite counter_get_foldl. done. Qed.

Lemma tf_score_overlap q_tokens tokens :
  tf_score q_tokens (Counter tokens) = overlap q_tokens tokens.
Proof.
  unfold tf_score, overlap. f_equal. apply map_ext.
  intros w. apply counter_get_Counter.
Qed.

Lemma score_step_rank_entry q_tokens scored d :
  score_step q_tokens scored d =
  scored ++ option_list (rank_entry q_tokens d).
Proof.
  unfold score_step, rank_entry. rewrite tf_score_overlap.
  destruct (tokenize (get_content d)) as [|w ws]; simpl.
  - by rewrite app_nil_r.
  - destruct (0 <? _); simpl; [done|]. by rewrite app_nil_r.
Qed.

Lemma foldl_score_step q_tokens docs scored :
  foldl (score_step q_tokens) scored docs =
  scored ++ omap (rank_entry q_tokens) docs.
Proof.
  revert scored. induction docs as [|d docs IH]; intros scored; simpl.
  - by rewrite app_nil_r.
  - rewrite IH, score_step_rank_entry, <- app_assoc. f_equal.
    by destruct (rank_entry q_tokens d).
Qed.

Lemma score_docs_omap q_tokens docs :
  score_docs q_tokens docs = omap (rank_entry q_tokens) docs.
Proof. apply (foldl_score_step q_tokens docs []). Qed.

Lemma rank_entry_Some q_tokens d s d' :
  rank_entry q_tokens d = Some (s, d') <->
  d' = d /\ tokenize (get_content d) <> [] /\
  s = overlap q_tokens (tokenize (get_content d)) /\ 0 < s.
Proof.
  unfold rank_entry.
  destruct (tokenize (get_content d)) as [|w ws] eqn:E.
  - split; [done|]. intros (_ & H & _). done.
  - destruct (0 <? overlap q_tokens (w :: ws)) eqn:Hs.
    + apply Nat.ltb_lt in Hs. split.
      * intros [= <- <-]. done.
      * intros (-> & _ & -> & _). done.
    + apply Nat.ltb_ge in Hs. split; [done|].
      intros (_ & _ & -> & ?). lia.
Qed.

(** C1.  The score the loop computes for a document (through its
    [Counter]) is the sum, over the question's tokens with their
    repetitions, of the token's number of occurrences among the document's
    tokens; the list [scored] holds, in the order of the candidates,
    exactly the documents that have a token and a score above zero, each
    with that score; a document without tokens is not in it. *)
Theorem score_docs_term_frequency (q_tokens : list pystr) (docs : list doc) :
  (forall tokens,
     tf_score q_tokens (Counter tokens) =
     sum_list (map (fun t => occurrences t tokens) q_tokens)) /\
  score_docs q_tokens docs = omap (rank_entry q_tokens) docs /\
  (forall s d, (s, d) ∈ score_docs q_tokens docs <->
     d ∈ docs /\ tokenize (get_content d) <> [] /\
     s = overlap q_tokens (tokenize (get_content d)) /\ 0 < s) /\
  (forall s d, tokenize (get_content d) = [] ->
     (s, d) ∉ score_docs q_tokens docs).
Proof.
  assert (Hmem : forall s d, (s, d) ∈ score_docs q_tokens docs <->
     d ∈ docs /\ tokenize (get_content d) <> [] /\
     s = overlap q_tokens (tokenize (get_content d)) /\ 0 < s).
  { intros s d. rewrite score_docs_omap, list_elem_of_omap. split.
    - intros (d0 & Hin & H). apply rank_entry_Some in H as (-> & H).
      by split.
    - intros (Hin & H). exists d. split; [done|].
      apply rank_entry_Some. by split. }
  split; [|split; [|split]].
  - intros tokens. apply tf_score_overlap.
  - apply score_docs_omap.
  - exact Hmem.
  - intros s d E H. apply Hmem in H as (_ & H & _). done.
Qed.

Lemma overlap_mono q_tokens tokens1 tokens2 :
  (forall w, occurrences w tokens1 <= occurrences w tokens2) ->
  overlap q_tokens tokens1 <= overlap q_tokens tokens2.
Proof.
  intros H. unfold overlap.
  induction q_tokens as [|w q IH]; simpl; [done|].
  specialize (H w). lia.
Qed.

Lemma overlap_nil q_tokens : overlap q_tokens [] = 0.
Proof. unfold overlap. induction q_tokens as [|w q IH]; simpl; auto. Qed.

Lemma score_docs_single q_tokens d :
  score_docs q_tokens [d] <> [] <->
  0 < overlap q_tokens (tokenize (get_content d)).
Proof.
  rewrite score_docs_omap. simpl. unfold rank_entry.
  destruct (tokenize (get_content d)) as [|w ws].
  - rewrite overlap_nil. simpl. split; [done|lia].
  - destruct (0 <? overlap q_tokens (w :: ws)) eqn:E; simpl.
    + apply Nat.ltb_lt in E. done.
    + apply Nat.ltb_ge in E. split; [done|lia].
Qed.

(** C7.  When two documents have the same number of occurrences of every
    token but one, and the second has at least as many occurrences of that
    one, the second document's score is at least the first one's; and if
    the first is kept for ranking, so is the second. *)
Theorem score_monotone_in_term_frequency
    (q_tokens : list pystr) (d1 d2 : doc) (t : pystr) :
  let tokens1 := tokenize (get_content d1) in
  let tokens2 := tokenize (get_content d2) in
  occurrences t tokens1 <= occurrences t tokens2 ->
  (forall w, w <> t -> occurrences w tokens1 = occurrences w tokens2) ->
  tf_score q_tokens (Counter tokens1) <= tf_score q_tokens (Counter tokens2) /\
  (score_docs q_tokens [d1] <> [] -> score_docs q_tokens [d2] <> []).
Proof.
  intros tokens1 tokens2 Ht Hother.
  assert (H : overlap q_tokens tokens1 <= overlap q_tokens tokens2).
  { apply overlap_mono. intros w. destruct (decide (w = t)) as [->|Hw]; [done|].
    by rewrite Hother. }
  split.
  - by rewrite !tf_score_overlap.
  - rewrite !score_docs_single. fold tokens1 tokens2. lia.
Qed.

Lemma score_monotone_in_term_frequency_witness :
  tf_score [str "rust"] (Counter (tokenize (str "rust is fast"))) <=
  tf_score [str "rust"] (Counter (tokenize (str "rust rust is fast"))) /\
  (score_docs [str "rust"] [doc_of_text "rust is fast"] <> [] ->
   score_docs [str "rust"] [doc_of_text "rust rust is fast"] <> []).
Proof.
  apply (score_monotone_in_term_frequency [str "rust"]
           (doc_of_text "rust is fast") (doc_of_text "rust rust is fast")
           (str "rust")).
  - vm_compute. lia.
  - intros w Hw.
    change (tokenize (get_content (doc_of_text "rust rust is fast")))
      with (str "rust" :: tokenize (get_content (doc_of_text "rust is fast"))).
    rewrite (occurrences_cons w (str "rust")).
    rewrite bool_decide_eq_false_2; [reflexivity|congruence].
Defined.

(** ** Ranking *)

Section stable_sort.
Context {A : Type} (key : A -> nat).

Lemma insert_desc_perm x l : Permutation (insert_desc key x l) (x :: l).
Proof.
  induction l as [|y l IH]; simpl; [done|].
  destruct (key x <? key y); [|done].
  rewrite IH. apply perm_swap.
Qed.

Lemma sort_desc_perm l : Permutation (sort_desc key l) l.
Proof.
  induction l as [|x l IH]; simpl; [done|].
  rewrite insert_desc_perm. by constructor.
Qed.

Lemma insert_desc_sorted x l :
  StronglySorted (desc_by key) l -> StronglySorted (desc_by key) (insert_desc key x l).
Proof.
  induction 1 as [|y l Hl IH Hy]; simpl.
  - repeat constructor.
  - destruct (key x <? key y) eqn:E.
    + apply Nat.ltb_lt in E. constructor; [done|].
      rewrite insert_desc_perm. constructor; [unfold desc_by; lia|done].
    + apply Nat.ltb_ge in E. constructor; [by constructor|].
      constructor; [done|].
      eapply Forall_impl; [exact Hy|]. unfold desc_by. intros z Hz. lia.
Qed.

Lemma sort_desc_sorted l : StronglySorted (desc_by key) (sort_desc key l).
Proof.
  induction l as [|x l IH]; simpl; [constructor|].
  by apply insert_desc_sorted.
Qed.

Lemma filter_insert_desc k x l :
  List.filter (has_key key k) (insert_desc key x l) = List.filter (has_key key k) (x :: l).
Proof.
  induction l as [|y l IH]; [done|].
  cbn [insert_desc]. destruct (key x <? key y) eqn:E; [|done].
  apply Nat.ltb_lt in E.
  cbn [List.filter] in *. rewrite IH. unfold has_key.
  destruct (key y =? k) eqn:Ey, (key x =? k) eqn:Ex; try done.
  apply Nat.eqb_eq in Ey, Ex. lia.
Qed.

Lemma filter_sort_desc k l :
  List.filter (has_key key k) (sort_desc key l) = List.filter (has_key key k) l.
Proof.
  induction l as [|x l IH]; [done|].
  cbn [sort_desc foldr]. rewrite filter_insert_desc.
  cbn [List.filter]. fold (sort_desc key l). by rewrite IH.
Qed.

Lemma filter_cons_key k x l :
  List.filter (has_key key k) (x :: l) =
  if key x =? k then x :: List.filter (has_key key k) l
  else List.filter (has_key key k) l.
Proof. done. Qed.

Lemma filter_key_above z l k :
  Forall (desc_by key z) l -> key z < k -> List.filter (has_key key k) l = [].
Proof.
  intros Hl Hk. induction Hl as [|u l Hu _ IHl]; [done|].
  rewrite filter_cons_key.
  destruct (key u =? k) eqn:E; [|done].
  apply Nat.eqb_eq in E. unfold desc_by in Hu. lia.
Qed.

(** A descending list is determined by its sub-lists of equal keys: the
    stable descending sort of a list is unique. *)
Lemma stable_sort_unique (r1 r2 : list A) :
  StronglySorted (desc_by key) r1 -> StronglySorted (desc_by key) r2 ->
  (forall k, List.filter (has_key key k) r1 = List.filter (has_key key k) r2) ->
  r1 = r2.
Proof.
  intros H1. revert r2.
  induction H1 as [|x r1 Hr1 IH Hx]; intros r2 H2 Hf.
  - destruct r2 as [|y r2]; [done|].
    specialize (Hf (key y)). rewrite filter_cons_key, Nat.eqb_refl in Hf. done.
  - destruct H2 as [|y r2 Hr2 Hy].
    { specialize (Hf (key x)). rewrite filter_cons_key, Nat.eqb_refl in Hf. done. }
    assert (Hkey : key x = key y).
    { destruct (Nat.lt_trichotomy (key x) (key y)) as [Hlt|[E|Hlt]]; [|done|].
      - specialize (Hf (key y)). rewrite !filter_cons_key, Nat.eqb_refl in Hf.
        destruct (key x =? key y) eqn:E; [apply Nat.eqb_eq in E; lia|].
        rewrite (filter_key_above x r1 (key y)) in Hf by done. done.
      - specialize (Hf (key x)). rewrite !filter_cons_key, Nat.eqb_refl in Hf.
        destruct (key y =? key x) eqn:E; [apply Nat.eqb_eq in E; lia|].
        rewrite (filter_key_above y r2 (key x)) in Hf by done. done. }
    assert (Hxy : x = y).
    { specialize (Hf (key x)).
      rewrite !filter_cons_key, <- Hkey, Nat.eqb_refl in Hf.
      by injection Hf. }
    subst y. f_equal. apply IH; [done|].
    intros k. specialize (Hf k). rewrite !filter_cons_key in Hf.
    destruct (key x =? k); [by injection Hf|done].
Qed.

Lemma filter_app_cons_inv (P : A -> bool) l u x v :
  List.filter P l = u ++ x :: v ->
  exists l1 l2, l = l1 ++ x :: l2 /\ List.filter P l1 = u /\ List.filter P l2 = v.
Proof.
  revert u. induction l as [|y l IH]; intros u H; cbn [List.filter] in H.
  - by destruct u.
  - destruct (P y) eqn:Ey.
    + destruct u as [|y' u]; simpl in H.
      * injection H as E Hv. subst y. by exists [], l.
      * injection H as E H. subst y'. apply IH in H as (l1 & l2 & -> & Hu & Hv).
        exists (y :: l1), l2. cbn [List.filter]. rewrite Ey, Hu. done.
    + apply IH in H as (l1 & l2 & -> & Hu & Hv).
      exists (y :: l1), l2. cbn [List.filter]. rewrite Ey. done.
Qed.

Lemma stable_order_preserved l r a x b y c :
  (forall k, List.filter (has_key key k) r = List.filter (has_key key k) l) ->
  r = a ++ x :: b ++ y :: c -> key x = key y ->
  exists a' b' c', l = a' ++ x :: b' ++ y :: c'.
Proof.
  intros Hf -> Hkey. specialize (Hf (key x)).
  rewrite List.filter_app, filter_cons_key, Nat.eqb_refl in Hf.
  rewrite List.filter_app, filter_cons_key, <- Hkey, Nat.eqb_refl in Hf.
  symmetry in Hf. apply filter_app_cons_inv in Hf as (a' & l2 & -> & _ & Hf).
  apply filter_app_cons_inv in Hf as (b' & c' & -> & _ & _).
  by exists a', b', c'.
Qed.
End stable_sort.

Lemma omap_app_cons_inv {A B} (f : A -> option B) l u x v :
  omap f l = u ++ x :: v ->
  exists l1 d l2, l = l1 ++ d :: l2 /\ f d = Some x /\
                  omap f l1 = u /\ omap f l2 = v.
Proof.
  revert u. induction l as [|y l IH]; intros u H; cbn [omap list_omap] in H.
  - by destruct u.
  - destruct (f y) as [z|] eqn:Ey.
    + destruct u as [|z' u]; simpl in H.
      * injection H as E Hv. subst z. by exists [], y, l.
      * injection H as E H. subst z'.
        apply IH in H as (l1 & d & l2 & -> & Hd & Hu & Hv).
        exists (y :: l1), d, l2. cbn [omap list_omap]. rewrite Ey, Hu. done.
    + apply IH in H as (l1 & d & l2 & -> & Hd & Hu & Hv).
      exists (y :: l1), d, l2. cbn [omap list_omap]. rewrite Ey. done.
Qed.

Lemma rank_entry_snd q_tokens d x : rank_entry q_tokens d = Some x -> snd x = d.
Proof. destruct x as [s d']. intros H. by apply rank_entry_Some in H as [-> _]. Qed.

Lemma filter_score_omap q_tokens docs s :
  0 < s ->
  map snd (List.filter (fun x => fst x =? s) (omap (rank_entry q_tokens) docs)) =
  List.filter (fun d => overlap q_tokens (tokenize (get_content d)) =? s) docs.
Proof.
  intros Hs. induction docs as [|d docs IH]; [done|].
  cbn [omap list_omap List.filter]. unfold rank_entry at 1.
  destruct (tokenize (get_content d)) as [|w ws] eqn:E.
  - rewrite overlap_nil. destruct (0 =? s) eqn:E0; [|done].
    apply Nat.eqb_eq in E0. lia.
  - destruct (0 <? overlap q_tokens (w :: ws)) eqn:Hpos.
    + cbn [List.filter fst].
      destruct (overlap q_tokens (w :: ws) =? s); simpl; by rewrite IH.
    + apply Nat.ltb_ge in Hpos.
      destruct (overlap q_tokens (w :: ws) =? s) eqn:E0; [|done].
      apply Nat.eqb_eq in E0. lia.
Qed.

(** C3.  The ranking is the list [scored] rearranged in descending order
    of score, and the rearrangement is stable: the entries of any one score
    keep the order they had in [scored], which is the order of the
    candidate set; two entries of equal score that follow each other in
    the ranking come from documents that follow each other, in the same
    order, in the candidate set. *)
Theorem ranked_descending_stable (q_tokens : list pystr) (docs : list doc) :
  StronglySorted by_score_desc (ranked q_tokens docs) /\
  Permutation (ranked q_tokens docs) (score_docs q_tokens docs) /\
  (forall s,
     List.filter (fun x => fst x =? s) (ranked q_tokens docs) =
     List.filter (fun x => fst x =? s) (score_docs q_tokens docs)) /\
  (forall s, 0 < s ->
     map snd (List.filter (fun x => fst x =? s) (ranked q_tokens docs)) =
     List.filter (fun d => overlap q_tokens (tokenize (get_content d)) =? s) docs) /\
  (forall a x b y c,
     ranked q_tokens docs = a ++ x :: b ++ y :: c -> fst x = fst y ->
     exists a' b' c', docs = a' ++ snd x :: b' ++ snd y :: c').
Proof.
  assert (Hf : forall s,
     List.filter (fun x => fst x =? s) (ranked q_tokens docs) =
     List.filter (fun x => fst x =? s) (score_docs q_tokens docs)).
  { intros s. apply (filter_sort_desc fst). }
  split; [|split; [|split; [|split]]].
  - apply (sort_desc_sorted fst).
  - apply sort_desc_perm.
  - exact Hf.
  - intros s Hs. rewrite Hf, score_docs_omap. by apply filter_score_omap.
  - intros a x b y c Hr Hxy.
    destruct (stable_order_preserved fst _ _ a x b y c Hf Hr Hxy)
      as (a' & b' & c' & H).
    rewrite score_docs_omap in H.
    apply omap_app_cons_inv in H as (l1 & d1 & l2 & -> & Hd1 & _ & H).
    apply omap_app_cons_inv in H as (l3 & d2 & l4 & -> & Hd2 & _ & _).
    apply rank_entry_snd in Hd1, Hd2. subst.
    by exists l1, l3, l4.
Qed.

(** ** Selection *)

Lemma length_slice_to_nonneg {A} (l : list A) k :
  (0 <= k)%Z -> length (slice_to l k) = Nat.min (Z.to_nat k) (length l).
Proof.
  intros Hk. unfold slice_to.
  destruct (0 <=? k)%Z eqn:E; [|lia]. apply length_take.
Qed.

Lemma length_score_docs q_tokens docs :
  length (score_docs q_tokens docs) = positives q_tokens docs.
Proof.
  rewrite score_docs_omap. unfold positives.
  induction docs as [|d docs IH]; [done|].
  cbn [omap list_omap List.filter]. unfold rank_entry at 1.
  destruct (tokenize (get_content d)) as [|w ws].
  - by rewrite overlap_nil.
  - destruct (0 <? overlap q_tokens (w :: ws)); simpl; by rewrite IH.
Qed.

Lemma length_ranked q_tokens docs :
  length (ranked q_tokens docs) = positives q_tokens docs.
Proof.
  unfold ranked.
  rewrite (Permutation_length (sort_desc_perm fst (score_docs q_tokens docs))).
  apply length_score_docs.
Qed.

Lemma length_select_top q_tokens docs k :
  (0 <= k)%Z ->
  length (select_top q_tokens docs k) =
  Nat.min (Z.to_nat k) (positives q_tokens docs).
Proof.
  intros Hk. unfold select_top.
  by rewrite length_map, length_slice_to_nonneg, length_ranked.
Qed.

Lemma length_sources_answer_from q k docs :
  (0 <= k)%Z ->
  length (sources_of (answer_from q k docs)) <=
  Nat.min (Z.to_nat k) (positives (tokenize q) docs).
Proof.
  intros Hk. unfold answer_from.
  destruct docs as [|d docs]; [simpl; lia|].
  destruct (score_docs (tokenize q) (d :: docs)) eqn:E; [simpl; lia|].
  cbn [sources_of]. rewrite length_map, length_select_top by done. done.
Qed.

Lemma filter_MatchAll docs : List.filter (filter_matches MatchAll) docs = docs.
Proof. induction docs as [|d docs IH]; simpl; by rewrite ?IH. Qed.

(** ** The endpoint *)

Lemma get_documents_ask st :
  get_documents "resource" MatchAll 100 st =
  (match backend st with
   | inl e => inl e
   | inr _ => inr (candidates st)
   end, after_query st).
Proof.
  unfold get_documents, candidates, after_query, ask_query.
  destruct (backend st) as [e|m]; [done|]. by rewrite filter_MatchAll.
Qed.

Lemma ask_question_blank payload st :
  strip (question payload) = [] ->
  ask_question payload st = (HTTPException 400 (str "Empty question"), st).
Proof. unfold ask_question. by intros ->. Qed.

Lemma ask_question_unavailable payload st e :
  strip (question payload) <> [] -> backend st = inl e ->
  ask_question payload st =
  (HTTPException 500 (str "Database error: " ++ e), after_query st).
Proof.
  intros Hq Hb. unfold ask_question. rewrite get_documents_ask, Hb.
  by destruct (strip (question payload)).
Qed.

Lemma ask_question_available payload st m :
  strip (question payload) <> [] -> backend st = inr m ->
  ask_question payload st =
  (answer_from (strip (question payload)) (top_k payload) (candidates st),
   after_query st).
Proof.
  intros Hq Hb. unfold ask_question. rewrite get_documents_ask, Hb.
  by destruct (strip (question payload)).
Qed.

Lemma length_sources_ask_question payload st :
  (0 <= top_k payload)%Z ->
  length (sources_of (fst (ask_question payload st))) <=
  Nat.min (Z.to_nat (top_k payload))
          (positives (tokenize (strip (question payload))) (candidates st)).
Proof.
  intros Hk.
  destruct (decide (strip (question payload) = [])) as [E|Hq].
  { rewrite ask_question_blank by done. simpl. lia. }
  destruct (backend st) as [e|m] eqn:Hb.
  - rewrite (ask_question_unavailable _ _ e) by done. simpl. lia.
  - rewrite (ask_question_available _ _ m) by done.
    by apply length_sources_answer_from.
Qed.

(** C2 (amended).  For a [top_k] that is not negative (3 when the body
    leaves it out; there is no upper bound), [/api/ask] returns no more
    than [min(top_k, n)] sources, [n] being the number of candidates with a
    score above zero. *)
Theorem top_k_selection_bound (b : ask_body) (st : store) :
  (0 <= default 3 (body_top_k b))%Z ->
  (Z.of_nat (length (sources_of (fst (post_ask b st)))) <=
   Z.min (default 3 (body_top_k b))
         (Z.of_nat (positives (tokenize (strip (body_question b)))
                              (candidates st))))%Z.
Proof.
  intros Hk. unfold post_ask, parse_AskRequest.
  destruct (length (body_question b) <? 3); [simpl; lia|].
  pose proof (length_sources_ask_question
    {| question := body_question b; top_k := default 3%Z (body_top_k b) |} st Hk)
    as H.
  cbn [question top_k] in H. lia.
Qed.

Lemma top_k_selection_bound_witness :
  (Z.of_nat (length (sources_of (fst (post_ask (ask_rust (Some 1%Z)) two_rust_docs)))) <=
   Z.min 1 (Z.of_nat (positives (tokenize (strip (str "what is rust")))
                                (candidates two_rust_docs))))%Z.
Proof.
  apply (top_k_selection_bound (ask_rust (Some 1%Z)) two_rust_docs).
  simpl. lia.
Defined.

(** C2, as stated, fails for a negative [top_k]: with two matching
    documents and [top_k = -1] the slice [scored[:-1]] keeps one document,
    which is more than [min(-1, 2)]. *)
Lemma top_k_negative_counterexample :
  length (sources_of (fst (post_ask (ask_rust (Some (-1)%Z)) two_rust_docs))) = 1 /\
  positives (tokenize (strip (str "what is rust"))) (candidates two_rust_docs) = 2 /\
  ~ (Z.of_nat (length (sources_of (fst (post_ask (ask_rust (Some (-1)%Z)) two_rust_docs)))) <=
     Z.min (-1) (Z.of_nat (positives (tokenize (strip (str "what is rust")))
                                     (candidates two_rust_docs))))%Z.
Proof.
  assert (H1 : length (sources_of (fst (post_ask (ask_rust (Some (-1)%Z)) two_rust_docs))) = 1)
    by (vm_compute; reflexivity).
  assert (H2 : positives (tokenize (strip (str "what is rust"))) (candidates two_rust_docs) = 2)
    by (vm_compute; reflexivity).
  split; [done|]. split; [done|]. rewrite H1, H2. lia.
Qed.

Lemma lstrip_blank s : Forall (fun c => is_space c = true) s -> lstrip s = [].
Proof. induction 1 as [|c s Hc _ IH]; simpl; [done|]. by rewrite Hc. Qed.

Lemma strip_blank s : Forall (fun c => is_space c = true) s -> strip s = [].
Proof. intros H. unfold strip. by rewrite lstrip_blank. Qed.

Lemma positives_zero q_tokens docs :
  Forall (fun d => overlap q_tokens (tokenize (get_content d)) = 0) docs ->
  positives q_tokens docs = 0.
Proof.
  unfold positives. induction 1 as [|d docs Hd _ IH]; [done|].
  cbn [List.filter]. by rewrite Hd.
Qed.

Lemma score_docs_none q_tokens docs :
  Forall (fun d => overlap q_tokens (tokenize (get_content d)) = 0) docs ->
  score_docs q_tokens docs = [].
Proof.
  intros H. apply positives_zero in H. rewrite <- length_score_docs in H.
  by destruct (score_docs q_tokens docs).
Qed.

(** C8.  For a question that passes validation, with the store answering
    and no candidate scoring above zero, the response is a success (status
    200) without sources; its answer is the fixed text about having no
    resources yet when the candidate set is empty, and the fixed text about
    not finding information when it is not. *)
Theorem empty_results_are_successes
    (b : ask_body) (payload : AskRequest) (st : store) (m : gmap string (list doc)) :
  parse_AskRequest b = Some payload ->
  strip (question payload) <> [] ->
  backend st = inr m ->
  Forall (fun d => overlap (tokenize (strip (question payload)))
                           (tokenize (get_content d)) = 0) (candidates st) ->
  fst (post_ask b st) =
    Ok (match candidates st with
        | [] => str "I don't have any resources yet. Please add a website or docs first."
        | _ => str "I couldn't find information about that in the provided resources."
        end) [] /\
  status (fst (post_ask b st)) = 200.
Proof.
  intros Hp Hq Hb Hzero. unfold post_ask. rewrite Hp.
  rewrite (ask_question_available _ _ m) by done. cbn [fst].
  unfold answer_from.
  destruct (candidates st) as [|d docs]; [done|].
  by rewrite score_docs_none.
Qed.

Lemma empty_results_are_successes_witness :
  fst (post_ask (ask_rust None) (store_of [cooking])) =
    Ok (match candidates (store_of [cooking]) with
        | [] => str "I don't have any resources yet. Please add a website or docs first."
        | _ => str "I couldn't find information about that in the provided resources."
        end) [] /\
  status (fst (post_ask (ask_rust None) (store_of [cooking]))) = 200.
Proof.
  apply (empty_results_are_successes (ask_rust None)
           {| question := str "what is rust"; top_k := 3 |} (store_of [cooking])
           {[ "resource"%string := [cooking] ]}).
  - reflexivity.
  - vm_compute. discriminate.
  - reflexivity.
  - vm_compute. repeat constructor.
Defined.

Example no_resources_yet :
  fst (post_ask (ask_rust None) (store_of [])) = Ok msg_no_resources [].
Proof. reflexivity. Qed.

Example no_match_found :
  fst (post_ask (ask_rust None) (store_of [cooking])) = Ok msg_not_found [].
Proof. vm_compute. reflexivity. Qed.

(** C9.  A question that is empty or made of white space only is rejected
    with a client-error status (422 by the validation of the body when it
    is shorter than three characters, 400 "Empty question" by the handler
    otherwise), and the store is left as it was: no query is issued. *)
Theorem blank_question_rejected (b : ask_body) (st : store) :
  Forall (fun c => is_space c = true) (body_question b) ->
  (fst (post_ask b st) = RequestValidationError \/
   fst (post_ask b st) = HTTPException 400 (str "Empty question")) /\
  400 <= status (fst (post_ask b st)) < 500 /\
  snd (post_ask b st) = st /\
  queries (snd (post_ask b st)) = queries st.
Proof.
  intros Hblank. unfold post_ask, parse_AskRequest.
  destruct (length (body_question b) <? 3).
  - simpl. split; [by left|]. split; [lia|done].
  - rewrite ask_question_blank by (by apply strip_blank).
    simpl. split; [by right|]. split; [lia|done].
Qed.

Lemma blank_question_rejected_witness :
  (fst (post_ask {| body_question := str "    "; body_top_k := None |} two_rust_docs)
     = RequestValidationError \/
   fst (post_ask {| body_question := str "    "; body_top_k := None |} two_rust_docs)
     = HTTPException 400 (str "Empty question")) /\
  400 <= status (fst (post_ask {| body_question := str "    "; body_top_k := None |}
                               two_rust_docs)) < 500 /\
  snd (post_ask {| body_question := str "    "; body_top_k := None |} two_rust_docs)
    = two_rust_docs /\
  queries (snd (post_ask {| body_question := str "    "; body_top_k := None |}
                         two_rust_docs)) = queries two_rust_docs.
Proof.
  apply (blank_question_rejected
           {| body_question := str "    "; body_top_k := None |} two_rust_docs).
  simpl. repeat constructor.
Defined.

Lemma candidates_truncate st : candidates (truncate_store st) = candidates st.
Proof.
  unfold candidates, truncate_store. simpl.
  destruct (backend st) as [e|m]; [done|].
  unfold collection at 1. rewrite lookup_insert_eq. simpl.
  rewrite take_take. f_equal.
Qed.

Lemma select_top_subseteq q_tokens docs k d :
  In d (select_top q_tokens docs k) -> In d docs.
Proof.
  unfold select_top. rewrite in_map_iff. intros (x & <- & Hx).
  assert (Hr : x ∈ ranked q_tokens docs).
  { apply list_elem_of_In in Hx. unfold slice_to in Hx.
    destruct (0 <=? k)%Z; by apply subseteq_take in Hx. }
  unfold ranked in Hr. rewrite sort_desc_perm, score_docs_omap in Hr.
  apply list_elem_of_omap in Hr as (d0 & Hd0 & Hx0).
  apply rank_entry_snd in Hx0 as ->. by apply list_elem_of_In.
Qed.

Lemma sources_answer_from q k docs :
  Forall (fun src => In src (map normalize_source docs))
         (sources_of (answer_from q k docs)).
Proof.
  unfold answer_from. destruct docs as [|d docs]; [constructor|].
  destruct (score_docs (tokenize q) (d :: docs)); [constructor|].
  cbn [sources_of]. apply List.Forall_forall. intros src Hsrc.
  apply in_map_iff in Hsrc as (d0 & <- & Hd0).
  apply in_map. by apply select_top_subseteq in Hd0.
Qed.

Lemma select_top_unscored q_tokens docs k :
  score_docs q_tokens docs = [] -> select_top q_tokens docs k = [].
Proof.
  intros E. unfold select_top, ranked, slice_to. rewrite E.
  change (sort_desc fst (@nil (nat * doc))) with (@nil (nat * doc)).
  destruct (0 <=? k)%Z; by rewrite take_nil.
Qed.

Lemma select_top_no_candidates q_tokens k : select_top q_tokens [] k = [].
Proof. by apply select_top_unscored. Qed.

Lemma sources_of_answer_from q k docs :
  sources_of (answer_from q k docs) =
  map normalize_source (select_top (tokenize q) docs k).
Proof.
  unfold answer_from. destruct docs as [|d docs].
  - by rewrite select_top_no_candidates.
  - destruct (score_docs (tokenize q) (d :: docs)) eqn:E; [|done].
    by rewrite select_top_unscored.
Qed.

(** C10.  For a question that is not blank, [/api/ask] queries the store
    exactly once, on ["resource"] with the empty filter and the limit 100
    (and not at all for a blank question); what the query gives, the
    candidate set, is the first 100 documents of the collection at most;
    the response is the handler's answer computed from this candidate set,
    and the sources are the documents selected from the ranking of this
    candidate set; hence the response is the one the store would give with
    every later document removed, whatever [top_k] is, and every source
    cited is one of these first 100 documents. *)
Theorem ask_reads_first_100 (payload : AskRequest) (st : store) :
  fst (get_documents "resource" MatchAll 100 st) =
    match backend st with
    | inl e => inl e
    | inr m => inr (take 100 (collection m "resource"))
    end /\
  length (candidates st) <= 100 /\
  snd (ask_question payload st) =
    match strip (question payload) with
    | [] => st
    | _ => {| backend := backend st;
              queries := queries st ++
                [{| q_collection := "resource"; q_filter := MatchAll;
                    q_limit := 100 |}] |}
    end /\
  fst (ask_question payload st) =
    (let q := strip (question payload) in
     match q with
     | [] => HTTPException 400 (str "Empty question")
     | _ =>
         match backend st with
         | inl e => HTTPException 500 (str "Database error: " ++ e)
         | inr m =>
             answer_from q (top_k payload) (take 100 (collection m "resource"))
         end
     end) /\
  sources_of (fst (ask_question payload st)) =
    (let q := strip (question payload) in
     match q with
     | [] => []
     | _ => map normalize_source
              (select_top (tokenize q) (candidates st) (top_k payload))
     end) /\
  fst (ask_question payload (truncate_store st)) = fst (ask_question payload st) /\
  Forall (fun src => In src (map normalize_source (candidates st)))
         (sources_of (fst (ask_question payload st))).
Proof.
  split; [|split; [|split; [|split; [|split; [|split]]]]].
  - rewrite get_documents_ask. unfold candidates. cbn [fst].
    by destruct (backend st).
  - unfold candidates. destruct (backend st); [simpl; lia|].
    rewrite length_take. lia.
  - destruct (decide (strip (question payload) = [])) as [E|Hq].
    { rewrite ask_question_blank by done. by rewrite E. }
    assert (Hsnd : snd (ask_question payload st) = after_query st).
    { destruct (backend st) as [e|m] eqn:Hb.
      - by rewrite (ask_question_unavailable _ _ e).
      - by rewrite (ask_question_available _ _ m). }
    rewrite Hsnd.
    destruct (strip (question payload)) eqn:E; [congruence|reflexivity].
  - cbn zeta. destruct (decide (strip (question payload) = [])) as [E|Hq].
    { rewrite ask_question_blank by done. by rewrite E. }
    destruct (backend st) as [e|m] eqn:Hb.
    + rewrite (ask_question_unavailable _ _ e) by done.
      destruct (strip (question payload)) eqn:E; [congruence|reflexivity].
    + rewrite (ask_question_available _ _ m) by done.
      unfold candidates. rewrite Hb.
      destruct (strip (question payload)) eqn:E; [congruence|reflexivity].
  - cbn zeta. destruct (decide (strip (question payload) = [])) as [E|Hq].
    { rewrite ask_question_blank by done. by rewrite E. }
    destruct (backend st) as [e|m] eqn:Hb.
    + rewrite (ask_question_unavailable _ _ e) by done.
      unfold candidates. rewrite Hb, select_top_no_candidates.
      destruct (strip (question payload)) eqn:E; [congruence|reflexivity].
    + rewrite (ask_question_available _ _ m) by done. cbn [fst].
      rewrite sources_of_answer_from.
      destruct (strip (question payload)) eqn:E; [congruence|reflexivity].
  - destruct (decide (strip (question payload) = [])) as [E|Hq].
    { by rewrite !ask_question_blank. }
    destruct (backend st) as [e|m] eqn:Hb.
    + rewrite (ask_question_unavailable _ st e) by done.
      rewrite (ask_question_unavailable _ (truncate_store st) e); [done..|].
      unfold truncate_store. simpl. by rewrite Hb.
    + rewrite (ask_question_available _ st m) by done.
      rewrite (ask_question_available _ (truncate_store st)
                 (<["resource"%string := take 100 (collection m "resource")]> m));
        [|done|unfold truncate_store; simpl; by rewrite Hb].
      cbn [fst]. by rewrite candidates_truncate.
  - destruct (decide (strip (question payload) = [])) as [E|Hq].
    { rewrite ask_question_blank by done. constructor. }
    destruct (backend st) as [e|m] eqn:Hb.
    + rewrite (ask_question_unavailable _ st e) by done. constructor.
    + rewrite (ask_question_available _ st m) by done.
      apply sources_answer_from.
Qed.

(** ** Snippets *)

Lemma startswith_spec t s : startswith t s = true <-> exists b, s = t ++ b.
Proof.
  revert s. induction t as [|a t IH]; intros s; simpl.
  - split; [|done]. intros _. by exists s.
  - destruct s as [|c s].
    + split; [done|]. by intros [b ?].
    + rewrite andb_true_iff, bool_decide_eq_true, IH. split.
      * intros [-> [b ->]]. by exists b.
      * intros [b [= -> ->]]. split; [done|]. by exists b.
Qed.

Lemma contains_spec t s : contains t s = true <-> exists a b, s = a ++ t ++ b.
Proof.
  induction s as [|c s IH].
  - simpl. rewrite orb_false_r, startswith_spec. split.
    + intros [b H]. by exists [], b.
    + intros (a & b & H). destruct a; [by exists b|done].
  - cbn [contains]. rewrite orb_true_iff, startswith_spec, IH. split.
    + intros [[b H]|(a & b & ->)]; [by exists [], b|by exists (c :: a), b].
    + intros (a & b & H). destruct a as [|c' a].
      * left. by exists b.
      * right. injection H as -> ->. by exists a, b.
Qed.

Lemma mentions_spec q_terms s :
  mentions q_terms s = true <->
  exists t a b, In t q_terms /\ lower s = a ++ t ++ b.
Proof.
  unfold mentions. rewrite existsb_exists. split.
  - intros (t & Hin & H). apply contains_spec in H as (a & b & H).
    by exists t, a, b.
  - intros (t & a & b & Hin & H). exists t. split; [done|].
    apply contains_spec. by exists a, b.
Qed.

Lemma boundary_free_nil : boundary_free [].
Proof. intros a c w b H. by destruct a. Qed.

Lemma boundary_free_snoc s c :
  boundary_free s ->
  after_terminator (rev s) = false \/ is_space c = false ->
  boundary_free (s ++ [c]).
Proof.
  intros Hs Hc a x w b H Hx Hw.
  destruct b as [|c' b _] using rev_ind.
  - replace (a ++ [x; w]) with ((a ++ [x]) ++ [w]) in H
      by (by rewrite <- app_assoc).
    apply app_inj_tail in H as [-> ->].
    rewrite rev_app_distr in Hc. simpl in Hc.
    destruct Hc; congruence.
  - replace (a ++ x :: w :: b ++ [c']) with ((a ++ x :: w :: b) ++ [c']) in H
      by (by rewrite <- app_assoc).
    apply app_inj_tail in H as [-> _].
    by apply (Hs a x w b).
Qed.

Lemma boundary_free_cur c cur :
  boundary_free (rev cur) ->
  after_terminator cur = false \/ is_space c = false ->
  boundary_free (rev (c :: cur)).
Proof.
  intros Hs Hc. cbn [rev]. apply boundary_free_snoc; [done|].
  by rewrite rev_involutive.
Qed.

Lemma after_terminator_ends cur :
  after_terminator cur = true -> ends_with_terminator (rev cur).
Proof.
  destruct cur as [|x cur]; [done|]. simpl. intros Hx. by exists (rev cur), x.
Qed.

Lemma split_go_sentences t :
  (forall cur, boundary_free (rev cur) ->
     sentences_of (rev cur ++ t) (split_go cur false t)) /\
  (exists gap rest, t = gap ++ rest /\
     Forall (fun c => is_space c = true) gap /\
     starts_outside is_space rest /\
     sentences_of rest (split_go [] true t)).
Proof.
  induction t as [|c t [IH1 IH2]].
  - split.
    + intros cur Hcur. rewrite app_nil_r. by apply sentences_last.
    + exists [], []. repeat split; [constructor|].
      apply (sentences_last []), boundary_free_nil.
  - assert (Hpush : forall cur, boundary_free (rev cur) ->
        after_terminator cur = false \/ is_space c = false ->
        sentences_of (rev cur ++ c :: t) (split_go (c :: cur) false t)).
    { intros cur Hcur Hc.
      replace (rev cur ++ c :: t) with (rev (c :: cur) ++ t)
        by (simpl; by rewrite <- app_assoc).
      apply IH1. by apply boundary_free_cur. }
    split.
    + intros cur Hcur. cbn [split_go].
      destruct (is_space c) eqn:Hc; [|by apply Hpush; auto].
      destruct (after_terminator cur) eqn:Hterm; [|by apply Hpush; auto].
      destruct IH2 as (gap & rest & -> & Hgap & Hrest & IH2).
      change (rev cur ++ c :: gap ++ rest) with (rev cur ++ (c :: gap) ++ rest).
      apply sentences_cons; auto.
      by apply after_terminator_ends.
    + cbn [split_go]. destruct (is_space c) eqn:Hc.
      * destruct IH2 as (gap & rest & -> & Hgap & Hrest & IH2).
        exists (c :: gap), rest. repeat split; auto.
      * exists [], (c :: t). repeat split; auto.
        apply (Hpush []); [apply boundary_free_nil|by right].
Qed.

Lemma split_go_push s cur t :
  boundary_free (rev cur ++ s) ->
  split_go cur false (s ++ t) = split_go (rev s ++ cur) false t.
Proof.
  revert cur. induction s as [|c s IH]; intros cur Hbf; [done|].
  assert (Hnext : split_go (c :: cur) false (s ++ t) =
                  split_go (rev (c :: s) ++ cur) false t).
  { rewrite IH.
    - simpl. by rewrite <- app_assoc.
    - simpl. by rewrite <- app_assoc. }
  cbn [app split_go].
  destruct (is_space c) eqn:Hc; [|exact Hnext].
  destruct (after_terminator cur) eqn:Hterm; [|exact Hnext].
  exfalso. destruct cur as [|x cur]; [done|]. simpl in Hterm, Hbf.
  rewrite <- app_assoc in Hbf. by apply (Hbf (rev cur) x c s).
Qed.

Lemma split_go_gap gap rest :
  Forall (fun c => is_space c = true) gap ->
  starts_outside is_space rest ->
  split_go [] true (gap ++ rest) = split_go [] false rest.
Proof.
  intros Hgap Hrest. induction Hgap as [|c gap Hc _ IH].
  - destruct rest as [|c rest]; [done|]. simpl in *. by rewrite Hrest.
  - simpl. by rewrite Hc.
Qed.

Lemma sentences_of_split text l :
  sentences_of text l <-> l = split_sentences text.
Proof.
  split.
  - unfold split_sentences.
    induction 1 as [s Hs | s gap rest l Hs Hend Hne Hgap Hrest _ IH].
    + rewrite <- (app_nil_r s) at 2.
      rewrite split_go_push by done. simpl. by rewrite app_nil_r, rev_involutive.
    + rewrite split_go_push by done. rewrite app_nil_r.
      destruct Hgap as [|g gap Hg Hgap]; [done|].
      destruct Hend as (s0 & x & -> & Hx).
      rewrite rev_app_distr. cbn [rev app split_go after_terminator].
      rewrite Hg, Hx, split_go_gap by done.
      rewrite <- IH. f_equal.
      rewrite rev_involutive. done.
  - intros ->. destruct (split_go_sentences text) as [H _].
    apply (H []), boundary_free_nil.
Qed.

Lemma total_len_snoc sel x : total_len (sel ++ [x]) = total_len sel + length x.
Proof.
  unfold total_len. induction sel as [|y sel IH]; simpl; [lia|].
  rewrite IH. lia.
Qed.

Lemma total_len_cons x sel : total_len (x :: sel) = length x + total_len sel.
Proof. done. Qed.

Lemma select_go_accumulate q_terms max_chars sentences selected :
  total_len selected <= max_chars ->
  select_go q_terms max_chars selected sentences =
  selected ++ accumulate max_chars (total_len selected)
                (map strip (List.filter (mentions q_terms) sentences)).
Proof.
  revert selected.
  induction sentences as [|s rest IH]; intros selected Hle.
  - simpl. by rewrite app_nil_r.
  - cbn [select_go List.filter]. destruct (mentions q_terms s).
    + cbn [map accumulate]. rewrite total_len_snoc.
      destruct (max_chars <? total_len selected + length (strip s)) eqn:E.
      * done.
      * apply Nat.ltb_ge in E. rewrite IH by (rewrite total_len_snoc; lia).
        rewrite total_len_snoc, <- app_assoc. done.
    + destruct (max_chars <? total_len selected) eqn:E.
      * apply Nat.ltb_lt in E. lia.
      * by apply IH.
Qed.


Lemma extract_snippets_unfold text q_terms max_chars :
  extract_snippets text q_terms max_chars =
  match accumulate max_chars 0
          (map strip (List.filter (mentions q_terms) (split_sentences text))) with
  | [] => take max_chars text
  | selected => take max_chars (join (str " ") selected)
  end.
Proof.
  unfold extract_snippets. rewrite select_go_accumulate by apply Nat.le_0_l.
  cbn [app]. change (total_len []) with 0.
  by destruct (accumulate _ _ _).
Qed.

(** C4.  A snippet is never longer than 600 characters (nor, in general,
    than the [max_chars] it is asked for), whether it is built from the
    selected sentences or falls back on the raw content. *)
Theorem extract_snippets_length (text : pystr) (q_terms : list pystr) :
  length (extract_snippets text q_terms 600) <= 600 /\
  (forall max_chars, length (extract_snippets text q_terms max_chars) <= max_chars) /\
  (select_go q_terms 600 [] (split_sentences text) = [] ->
   extract_snippets text q_terms 600 = take 600 text) /\
  (select_go q_terms 600 [] (split_sentences text) <> [] ->
   extract_snippets text q_terms 600 =
   take 600 (join (str " ") (select_go q_terms 600 [] (split_sentences text)))).
Proof.
  assert (H : forall max_chars,
             length (extract_snippets text q_terms max_chars) <= max_chars).
  { intros max_chars. unfold extract_snippets.
    destruct (select_go _ _ _ _); rewrite length_take; lia. }
  split; [apply H|]. split; [exact H|].
  unfold extract_snippets.
  destruct (select_go _ _ _ _); split; done.
Qed.


(** ** Worked examples *)

(** The end-to-end scenario of the specification: one document, the
    question "what is rust"; the snippet is the first sentence. *)
Example ask_rust_book :
  fst (post_ask (ask_rust None) (store_of [rust_book])) =
  Ok (answer_lead ++ str "Rust is a systems programming language." ++ answer_trail)
     [{| source_id := Some (str "65f0c0ffee");
         source_title := Some (str "Rust Book");
         source_url := None |}].
Proof. vm_compute. reflexivity. Qed.

Example ask_rust_queries_once :
  queries (snd (post_ask (ask_rust None) (store_of [rust_book]))) = [ask_query].
Proof. vm_compute. reflexivity. Qed.

(** "rust" occurs twice in the notes and once in the book, "is" once in the
    book: both score 2, and the book, retrieved first, stays first. *)
Example ranked_two_rust_docs :
  ranked (tokenize (str "what is rust")) [rust_book; cooking; rust_notes] =
  [(2, rust_book); (2, rust_notes)].
Proof. vm_compute. reflexivity. Qed.

Example split_sentences_example :
  split_sentences (str "  Hi there.  How are you?Fine! ok. ") =
  [str "  Hi there."; str "How are you?Fine!"; str "ok."; str ""].
Proof. vm_compute. reflexivity. Qed.

Example extract_snippets_example :
  extract_snippets (str "  Hi there.  How are you?Fine! ok. ")
                   [str "fine"; str "hi"] 600 =
  str "Hi there. How are you?Fine!".
Proof. vm_compute. reflexivity. Qed.

Example slice_to_examples :
  slice_to [1; 2; 3] 2 = [1; 2] /\ slice_to [1; 2; 3] 7 = [1; 2; 3] /\
  slice_to [1; 2; 3] 0 = [] /\ slice_to [1; 2; 3] (-1) = [1; 2] /\
  slice_to [1; 2; 3] (-5) = [].
Proof. repeat split. Qed.

(** * Further properties of the code *)

(** ** Tokens *)

Lemma lower_char_lower_alnum c :
  is_alnum c = true -> is_lower_alnum (lower_char c) = true.
Proof. by_cases_on_char c. Qed.

Lemma is_space_lower_char c : is_space (lower_char c) = is_space c.
Proof. by_cases_on_char c. Qed.

(** X1.  Every token is non-empty and made only of the characters [a-z]
    and [0-9]: no upper-case letter, white space, punctuation or other
    character ever reaches the scoring. *)
Theorem tokens_are_lowercase_alnum (t : pystr) :
  Forall (fun w => w <> [] /\ Forall (fun c => is_lower_alnum c = true) w)
         (tokenize t).
Proof.
  unfold tokenize. apply Forall_map.
  eapply Forall_impl; [apply findall_alnum_token_like|].
  intros w [Hne Hw]. simpl. split.
  - destruct w; [done|discriminate].
  - unfold lower. apply Forall_map. eapply Forall_impl; [exact Hw|].
    intros c Hc. simpl. by apply lower_char_lower_alnum.
Qed.

Lemma findall_go_app_sep cur a c b :
  is_alnum c = false ->
  findall_go cur (a ++ c :: b) = findall_go cur a ++ findall_go [] b.
Proof.
  intros Hc. revert cur. induction a as [|x a IH]; intros cur; simpl.
  - by rewrite Hc.
  - destruct (is_alnum x); [apply IH|].
    rewrite <- app_assoc. f_equal. apply IH.
Qed.

(** X2.  Tokenization is local: around a character that is not a letter or
    a digit, the tokens of a text are the tokens of what precedes it
    followed by the tokens of what follows it. *)
Theorem tokenize_app_separator (a b : pystr) (c : ascii) :
  is_alnum c = false ->
  tokenize (a ++ c :: b) = tokenize a ++ tokenize b.
Proof.
  intros Hc. unfold tokenize, findall_alnum.
  by rewrite findall_go_app_sep, map_app.
Qed.

Lemma tokenize_app_separator_witness :
  tokenize (str "what is" ++ " "%char :: str "rust") =
  tokenize (str "what is") ++ tokenize (str "rust").
Proof.
  apply (tokenize_app_separator (str "what is") (str "rust") " "%char).
  reflexivity.
Defined.

Lemma tokenize_no_alnum t :
  Forall (fun c => is_alnum c = false) t -> tokenize t = [].
Proof.
  intros H. unfold tokenize.
  apply runs_end, maximal_runs_findall in H. by rewrite <- H.
Qed.

(** X3.  A text has no token exactly when it holds no letter and no
    digit. *)
Theorem tokenize_nil_iff (t : pystr) :
  tokenize t = [] <-> Forall (fun c => is_alnum c = false) t.
Proof.
  unfold tokenize. split.
  - intros H. apply map_eq_nil in H.
    assert (Hr : maximal_runs t []) by (by apply maximal_runs_findall).
    by inversion Hr.
  - intros H. apply runs_end, maximal_runs_findall in H. by rewrite <- H.
Qed.

(** ** Counters and scores *)

Lemma occurrences_app t l1 l2 :
  occurrences t (l1 ++ l2) = occurrences t l1 + occurrences t l2.
Proof. unfold occurrences. by rewrite List.filter_app, length_app. Qed.

Lemma occurrences_pos t l : 0 < occurrences t l <-> In t l.
Proof.
  induction l as [|x l IH]; [unfold occurrences; simpl; lia|].
  rewrite occurrences_cons. simpl. case_bool_decide as E.
  - subst. split; [by left|lia].
  - rewrite <- IH. split; [intros H; right; lia|].
    intros [?|?]; [done|lia].
Qed.

Lemma Counter_snoc l x : Counter (l ++ [x]) = counter_add (Counter l) x.
Proof. unfold Counter. by rewrite foldl_app. Qed.

(** X4.  The keys of [Counter(tokens)] are exactly the tokens that occur,
    each mapped to its number of occurrences; no key is ever stored with
    the count 0. *)
Theorem Counter_lookup (tokens : list pystr) (t : pystr) (n : nat) :
  Counter tokens !! t = Some n <-> n = occurrences t tokens /\ In t tokens.
Proof.
  revert n. induction tokens as [|x l IH] using rev_ind; intros n.
  - unfold Counter. simpl. rewrite lookup_empty. split; [done|]. by intros [_ []].
  - rewrite Counter_snoc, occurrences_app, occurrences_cons.
    unfold counter_add. rewrite lookup_insert, counter_get_Counter, in_app_iff.
    case_decide as E.
    + subst x. rewrite bool_decide_eq_true_2 by done. simpl.
      change (occurrences t []) with 0. split.
      * intros [= <-]. split; [lia|]. right. by left.
      * intros [-> _]. f_equal. lia.
    + rewrite bool_decide_eq_false_2 by done.
      change (occurrences t []) with 0. rewrite IH. simpl.
      split.
      * intros [-> H]. split; [lia|by left].
      * intros [-> [H|[H|[]]]]; [|done]. split; [lia|done].
Qed.

Lemma overlap_cons_l x q d :
  overlap (x :: q) d = occurrences x d + overlap q d.
Proof. done. Qed.

Lemma overlap_cons_r q x d :
  overlap q (x :: d) = occurrences x q + overlap q d.
Proof.
  induction q as [|y q IH]; [done|].
  rewrite !overlap_cons_l, IH, !occurrences_cons.
  destruct (decide (x = y)) as [->|Hne].
  - rewrite !bool_decide_eq_true_2 by done. lia.
  - rewrite !bool_decide_eq_false_2 by congruence. lia.
Qed.

Lemma overlap_sym q d : overlap q d = overlap d q.
Proof.
  induction q as [|x q IH].
  - by rewrite overlap_nil.
  - by rewrite overlap_cons_l, overlap_cons_r, IH.
Qed.

(** X5.  The score is symmetric: scoring a document's tokens against the
    question's tokens gives the same number as scoring the question's
    tokens against the document's. *)
Theorem tf_score_symmetric (q_tokens tokens : list pystr) :
  tf_score q_tokens (Counter tokens) = tf_score tokens (Counter q_tokens).
Proof. rewrite !tf_score_overlap. apply overlap_sym. Qed.

Lemma overlap_pos q d : 0 < overlap q d <-> exists t, In t q /\ In t d.
Proof.
  induction q as [|x q IH].
  - change (overlap [] d) with 0. split; [lia|]. by intros (t & [] & _).
  - rewrite overlap_cons_l. split.
    + intros H. destruct (decide (0 < occurrences x d)) as [Hx|Hx].
      * exists x. split; [by left|]. by apply occurrences_pos.
      * destruct IH as [IH _]. destruct IH as (t & Hq & Hd); [lia|].
        exists t. split; [by right|done].
    + intros (t & [->|Hq] & Hd).
      * apply occurrences_pos in Hd. lia.
      * assert (0 < overlap q d) by (apply IH; by exists t). lia.
Qed.

(** X6.  A document scores above zero exactly when one of the question's
    tokens is one of its tokens; only such a document is ranked. *)
Theorem score_positive_iff_shared_token (q_tokens : list pystr) (d : doc) :
  (0 < doc_score q_tokens d <->
   exists t, In t q_tokens /\ In t (tokenize (get_content d))) /\
  ((doc_score q_tokens d, d) ∈ score_docs q_tokens [d] <->
   exists t, In t q_tokens /\ In t (tokenize (get_content d))).
Proof.
  assert (H : 0 < doc_score q_tokens d <->
              exists t, In t q_tokens /\ In t (tokenize (get_content d))).
  { unfold doc_score. rewrite tf_score_overlap. apply overlap_pos. }
  split; [exact H|]. rewrite <- H.
  unfold doc_score. rewrite tf_score_overlap, score_docs_omap.
  rewrite list_elem_of_omap. split.
  - intros (d0 & _ & Hd0). by apply rank_entry_Some in Hd0 as (_ & _ & _ & ?).
  - intros Hpos. exists d. split; [by left|].
    apply rank_entry_Some. repeat split; [|done].
    intros E. rewrite E, overlap_nil in Hpos. lia.
Qed.

Lemma overlap_perm_l q q' d : Permutation q q' -> overlap q d = overlap q' d.
Proof.
  induction 1 as [|x q q' _ IH|x y q|q q' q'' _ IH1 _ IH2].
  - done.
  - by rewrite !overlap_cons_l, IH.
  - rewrite !overlap_cons_l. lia.
  - congruence.
Qed.

(** X7.  The score looks at bags of words: it does not change when the
    question's tokens or the document's tokens come in another order. *)
Theorem tf_score_order_independent (q_tokens q_tokens' tokens tokens' : list pystr) :
  Permutation q_tokens q_tokens' -> Permutation tokens tokens' ->
  tf_score q_tokens (Counter tokens) = tf_score q_tokens' (Counter tokens').
Proof.
  intros Hq Hd. rewrite !tf_score_overlap.
  rewrite (overlap_perm_l _ _ _ Hq), overlap_sym.
  rewrite (overlap_perm_l _ _ _ Hd). apply overlap_sym.
Qed.

Lemma tf_score_order_independent_witness :
  tf_score (tokenize (str "what is rust")) (Counter (tokenize (str "rust is fast"))) =
  tf_score (tokenize (str "rust is what")) (Counter (tokenize (str "fast rust is"))).
Proof.
  apply tf_score_order_independent.
  - vm_compute. apply Permutation_rev.
  - vm_compute. symmetry.
    apply (Permutation_cons_append [str "rust"; str "is"] (str "fast")).
Defined.

(** ** Ranking and selection, beyond the bound *)

Lemma length_slice_to {A} (l : list A) k :
  Z.of_nat (length (slice_to l k)) =
  if (0 <=? k)%Z then Z.min k (Z.of_nat (length l))
  else Z.max 0 (Z.of_nat (length l) + k).
Proof.
  unfold slice_to. destruct (0 <=? k)%Z eqn:E; rewrite length_take.
  - apply Z.leb_le in E. lia.
  - apply Z.leb_gt in E. lia.
Qed.

Lemma length_select_top_any q_tokens docs k :
  Z.of_nat (length (select_top q_tokens docs k)) =
  if (0 <=? k)%Z then Z.min k (Z.of_nat (positives q_tokens docs))
  else Z.max 0 (Z.of_nat (positives q_tokens docs) + k).
Proof.
  unfold select_top. by rewrite length_map, length_slice_to, length_ranked.
Qed.

(** X8.  The number of documents selected, for any integer [top_k]: with
    [n] documents scoring above zero it is [min(top_k, n)] when [top_k] is
    not negative, and [max(0, n + top_k)] when it is negative, the slice
    then leaving out the last [-top_k] documents of the ranking. *)
Theorem select_top_length (q_tokens : list pystr) (docs : list doc) (k : Z) :
  Z.of_nat (length (select_top q_tokens docs k)) =
  if (0 <=? k)%Z then Z.min k (Z.of_nat (positives q_tokens docs))
  else Z.max 0 (Z.of_nat (positives q_tokens docs) + k).
Proof. apply length_select_top_any. Qed.

(** X9.  Asking for fewer documents gives a prefix of what asking for more
    gives: for [0 <= k1 <= k2] the selection for [k1] is the first [k1]
    documents of the selection for [k2]. *)
Theorem select_top_prefix (q_tokens : list pystr) (docs : list doc) (k1 k2 : Z) :
  (0 <= k1 <= k2)%Z ->
  select_top q_tokens docs k1 = take (Z.to_nat k1) (select_top q_tokens docs k2).
Proof.
  intros [H1 H2]. unfold select_top, slice_to.
  destruct (0 <=? k1)%Z eqn:E1; [|lia].
  destruct (0 <=? k2)%Z eqn:E2; [|lia].
  rewrite <- !firstn_map, take_take. f_equal. lia.
Qed.

Lemma select_top_prefix_witness :
  select_top (tokenize (str "what is rust")) [rust_book; cooking; rust_notes] 1 =
  take (Z.to_nat 1)
       (select_top (tokenize (str "what is rust")) [rust_book; cooking; rust_notes] 2).
Proof.
  apply (select_top_prefix (tokenize (str "what is rust"))
           [rust_book; cooking; rust_notes] 1 2).
  lia.
Defined.

Lemma doc_score_overlap q_tokens d :
  doc_score q_tokens d = overlap q_tokens (tokenize (get_content d)).
Proof. apply tf_score_overlap. Qed.

Lemma ranked_entry q_tokens docs s d :
  (s, d) ∈ ranked q_tokens docs <->
  d ∈ docs /\ s = doc_score q_tokens d /\ 0 < s.
Proof.
  unfold ranked. rewrite sort_desc_perm, score_docs_omap, list_elem_of_omap.
  rewrite doc_score_overlap. split.
  - intros (d0 & Hin & H). apply rank_entry_Some in H as (-> & _ & -> & ?). done.
  - intros (Hin & -> & Hpos). exists d. split; [done|].
    apply rank_entry_Some. repeat split; [|done].
    intros E. rewrite E, overlap_nil in Hpos. lia.
Qed.

(** X10.  The head of the ranking is a best match: it is one of the
    candidates, it carries that candidate's score, and no candidate scores
    more. *)
Theorem ranked_head_is_best
    (q_tokens : list pystr) (docs : list doc) (s : nat) (d : doc)
    (rest : list (nat * doc)) :
  ranked q_tokens docs = (s, d) :: rest ->
  In d docs /\ s = doc_score q_tokens d /\
  Forall (fun d' => doc_score q_tokens d' <= s) docs.
Proof.
  intros Hr.
  assert (Hhead : (s, d) ∈ ranked q_tokens docs) by (rewrite Hr; by left).
  apply ranked_entry in Hhead as (Hin & Hs & Hpos).
  split; [by apply list_elem_of_In|]. split; [done|].
  apply List.Forall_forall. intros d' Hd'.
  destruct (decide (0 < doc_score q_tokens d')) as [Hp|Hz]; [|lia].
  assert (Hd : (doc_score q_tokens d', d') ∈ ranked q_tokens docs).
  { apply ranked_entry. by rewrite list_elem_of_In. }
  pose proof (sort_desc_sorted fst (score_docs q_tokens docs)) as Hsorted.
  fold (ranked q_tokens docs) in Hsorted. rewrite Hr in Hsorted, Hd.
  apply StronglySorted_inv in Hsorted as [_ Hall].
  apply elem_of_cons in Hd as [[= -> _]|Hd]; [done|].
  rewrite List.Forall_forall in Hall.
  apply list_elem_of_In, Hall in Hd. exact Hd.
Qed.

Lemma ranked_head_is_best_witness :
  In rust_book [rust_book; cooking; rust_notes] /\
  2 = doc_score (tokenize (str "what is rust")) rust_book /\
  Forall (fun d' => doc_score (tokenize (str "what is rust")) d' <= 2)
         [rust_book; cooking; rust_notes].
Proof.
  apply (ranked_head_is_best (tokenize (str "what is rust"))
           [rust_book; cooking; rust_notes] 2 rust_book [(2, rust_notes)]).
  vm_compute. reflexivity.
Defined.

Lemma score_docs_some q_tokens docs :
  0 < positives q_tokens docs -> score_docs q_tokens docs <> [].
Proof.
  rewrite <- length_score_docs.
  destruct (score_docs q_tokens docs); simpl; [lia|done].
Qed.

Lemma positives_docs q_tokens docs : 0 < positives q_tokens docs -> docs <> [].
Proof. destruct docs; [unfold positives; simpl; lia|done]. Qed.

(** X11.  When documents match but the slice is empty ([top_k] is 0, or
    negative and at least as large in size as the number of matches), the
    response is still the success built from the template: the lead-in
    directly followed by the closing sentence, and no source.  It is not
    the text about not finding information. *)
Theorem matches_with_empty_selection (q : pystr) (k : Z) (docs : list doc) :
  0 < positives (tokenize q) docs ->
  (k = 0 \/ Z.of_nat (positives (tokenize q) docs) + k <= 0)%Z ->
  answer_from q k docs = Ok (answer_lead ++ answer_trail) [].
Proof.
  intros Hpos Hk. unfold answer_from.
  pose proof (positives_docs _ _ Hpos). destruct docs as [|d docs]; [done|].
  pose proof (score_docs_some _ _ Hpos).
  destruct (score_docs (tokenize q) (d :: docs)) eqn:E; [done|].
  assert (Hnil : select_top (tokenize q) (d :: docs) k = []).
  { apply length_zero_iff_nil.
    pose proof (length_select_top_any (tokenize q) (d :: docs) k) as Hl.
    destruct (0 <=? k)%Z eqn:E0.
    - apply Z.leb_le in E0. lia.
    - apply Z.leb_gt in E0. lia. }
  rewrite Hnil. done.
Qed.

Lemma matches_with_empty_selection_witness :
  answer_from (str "what is rust") 0 [rust_book] =
  Ok (answer_lead ++ answer_trail) [].
Proof.
  apply (matches_with_empty_selection (str "what is rust") 0 [rust_book]).
  - vm_compute. lia.
  - by left.
Defined.

(** ** The answer *)

Lemma length_extract_snippets text q_terms max_chars :
  length (extract_snippets text q_terms max_chars) <= max_chars.
Proof.
  unfold extract_snippets.
  destruct (select_go _ _ _ _); rewrite length_take; lia.
Qed.

Lemma length_join_le sep l :
  length (join sep l) <= total_len l + length sep * length l.
Proof.
  induction l as [|x l IH]; [simpl; lia|].
  destruct l as [|y l].
  - cbn [join]. rewrite total_len_cons. simpl. lia.
  - change (join sep (x :: y :: l)) with (x ++ sep ++ join sep (y :: l)).
    rewrite !length_app, total_len_cons.
    change (length (x :: y :: l)) with (S (length (y :: l))).
    rewrite Nat.mul_succ_r.
    generalize dependent (length (join sep (y :: l))).
    generalize (length sep * length (y :: l)) (total_len (y :: l)).
    intros; lia.
Qed.

Lemma total_len_bounded n l :
  Forall (fun s => length s <= n) l -> total_len l <= n * length l.
Proof.
  induction 1 as [|x l Hx _ IH].
  - change (total_len []) with 0. lia.
  - rewrite total_len_cons. cbn [length]. rewrite Nat.mul_succ_r. lia.
Qed.

Lemma length_answer_from q k docs :
  match answer_from q k docs with
  | Ok answer sources =>
      length answer <= length answer_lead + length answer_trail + 603 * length sources
  | _ => True
  end.
Proof.
  unfold answer_from. destruct docs as [|d docs]; [vm_compute; lia|].
  destruct (score_docs (tokenize q) (d :: docs)); [vm_compute; lia|].
  rewrite !length_app, !length_map.
  set (top := select_top (tokenize q) (d :: docs) k).
  set (snippets := map _ top).
  pose proof (length_join_le (" "%char :: [nl; nl]) snippets) as Hj.
  assert (Ht : total_len snippets <= 600 * length snippets).
  { apply total_len_bounded. unfold snippets. apply Forall_map, Forall_forall.
    intros d0 _. simpl. apply length_extract_snippets. }
  assert (Hl : length snippets = length top) by (unfold snippets; apply length_map).
  rewrite Hl in *. simpl length in Hj at 2. lia.
Qed.

(** X12.  The size of a successful answer is bounded by the number of
    sources cited: at most 108 characters of template and 603 characters
    (a snippet of at most 600, and a separator) per source. *)
Theorem answer_length_bound (b : ask_body) (st : store) :
  match fst (post_ask b st) with
  | Ok answer sources => length answer <= 108 + 603 * length sources
  | _ => True
  end.
Proof.
  unfold post_ask. destruct (parse_AskRequest b) as [payload|]; [|done].
  destruct (decide (strip (question payload) = [])) as [E|Hq].
  { by rewrite ask_question_blank. }
  destruct (backend st) as [e|m] eqn:Hb.
  - by rewrite (ask_question_unavailable _ _ e).
  - rewrite (ask_question_available _ _ m) by done. cbn [fst].
    pose proof (length_answer_from (strip (question payload)) (top_k payload)
                  (candidates st)) as H.
    destruct (answer_from _ _ _); [|done..].
    change (length answer_lead + length answer_trail) with 108 in H. exact H.
Qed.

Lemma lstrip_split s :
  exists ws, s = ws ++ lstrip s /\ Forall (fun c => is_space c = true) ws.
Proof.
  induction s as [|c s (ws & Hs & Hws)]; [by exists []|].
  simpl. destruct (is_space c) eqn:Hc.
  - exists (c :: ws). split; [simpl; by rewrite <- Hs|by constructor].
  - by exists [].
Qed.

Lemma rstrip_split s :
  exists ws, s = rstrip s ++ ws /\ Forall (fun c => is_space c = true) ws.
Proof.
  destruct (lstrip_split (rev s)) as (ws & Hs & Hws).
  exists (rev ws). split; [|by apply Forall_rev].
  unfold rstrip. rewrite <- rev_app_distr, <- Hs. by rewrite rev_involutive.
Qed.

Lemma strip_split s :
  exists ws1 ws2, s = ws1 ++ strip s ++ ws2 /\
    Forall (fun c => is_space c = true) ws1 /\
    Forall (fun c => is_space c = true) ws2.
Proof.
  destruct (lstrip_split s) as (ws1 & H1 & Hws1).
  destruct (rstrip_split (lstrip s)) as (ws2 & H2 & Hws2).
  exists ws1, ws2. unfold strip. by rewrite <- H2.
Qed.

Lemma blank_not_alnum ws :
  Forall (fun c => is_space c = true) ws ->
  Forall (fun c => is_alnum c = false) ws.
Proof.
  intros H. eapply Forall_impl; [exact H|]. intros c. apply is_space_not_alnum.
Qed.

Lemma tokenize_blank_prefix ws s :
  Forall (fun c => is_space c = true) ws -> tokenize (ws ++ s) = tokenize s.
Proof.
  intros H. unfold tokenize, findall_alnum.
  by rewrite findall_go_sep by (by apply blank_not_alnum).
Qed.

Lemma tokenize_blank_suffix s ws :
  Forall (fun c => is_space c = true) ws -> tokenize (s ++ ws) = tokenize s.
Proof.
  intros H. destruct H as [|c ws Hc Hws]; [by rewrite app_nil_r|].
  unfold tokenize, findall_alnum.
  rewrite findall_go_app_sep by (by apply is_space_not_alnum).
  rewrite <- (app_nil_r ws), findall_go_sep by (by apply blank_not_alnum).
  simpl. by rewrite app_nil_r.
Qed.

Lemma tokenize_strip s : tokenize (strip s) = tokenize s.
Proof.
  destruct (strip_split s) as (ws1 & ws2 & Hs & H1 & H2).
  rewrite Hs at 2. rewrite tokenize_blank_prefix by done.
  by rewrite tokenize_blank_suffix.
Qed.

Lemma answer_from_tokens q q' k docs :
  tokenize q = tokenize q' -> answer_from q k docs = answer_from q' k docs.
Proof. intros H. unfold answer_from. by rewrite H. Qed.

(** X13.  Of a question that is not blank, only the tokens matter: two
    questions with the same tokens (they may differ in case, punctuation
    and spacing) get the same response for the same [top_k], and leave the
    store in the same state. *)
Theorem question_matters_through_tokens (p1 p2 : AskRequest) (st : store) :
  strip (question p1) <> [] ->
  strip (question p2) <> [] ->
  tokenize (question p1) = tokenize (question p2) ->
  top_k p1 = top_k p2 ->
  ask_question p1 st = ask_question p2 st.
Proof.
  intros H1 H2 Htok Hk. destruct (backend st) as [e|m] eqn:Hb.
  - by rewrite !(ask_question_unavailable _ _ e).
  - rewrite !(ask_question_available _ _ m) by done. rewrite Hk.
    f_equal. apply answer_from_tokens. by rewrite !tokenize_strip.
Qed.

Lemma question_matters_through_tokens_witness :
  ask_question {| question := str "  What is RUST?"; top_k := 3 |} two_rust_docs =
  ask_question {| question := str "what, is: rust"; top_k := 3 |} two_rust_docs.
Proof.
  apply question_matters_through_tokens.
  - vm_compute. discriminate.
  - vm_compute. discriminate.
  - vm_compute. reflexivity.
  - reflexivity.
Defined.

Lemma overlap_no_question_token tokens : overlap [] tokens = 0.
Proof. done. Qed.

(** X14.  A question that passes validation but holds no letter and no
    digit (["???"]) has no token and matches nothing: with the store
    answering, the response is the text about having no resources when the
    store is empty and the text about not finding information otherwise,
    never a list of sources. *)
Theorem question_without_tokens (payload : AskRequest) (st : store)
    (m : gmap string (list doc)) :
  Forall (fun c => is_alnum c = false) (question payload) ->
  strip (question payload) <> [] ->
  backend st = inr m ->
  fst (ask_question payload st) =
  Ok (match candidates st with
      | [] => msg_no_resources
      | _ => msg_not_found
      end) [].
Proof.
  intros Hq Hne Hb. rewrite (ask_question_available _ _ m) by done. cbn [fst].
  unfold answer_from. destruct (candidates st) as [|d docs]; [done|].
  rewrite tokenize_strip. apply tokenize_no_alnum in Hq. rewrite Hq.
  rewrite score_docs_none; [done|].
  apply Forall_forall. intros d0 _. done.
Qed.

Lemma question_without_tokens_witness :
  fst (ask_question {| question := str "???"; top_k := 3 |} two_rust_docs) =
  Ok (match candidates two_rust_docs with
      | [] => msg_no_resources
      | _ => msg_not_found
      end) [].
Proof.
  apply (question_without_tokens {| question := str "???"; top_k := 3 |}
           two_rust_docs {[ "resource"%string := [rust_book; rust_notes] ]}).
  - vm_compute. repeat constructor.
  - vm_compute. discriminate.
  - reflexivity.
Defined.

(** X15.  When the store raises, a question that passes validation gets
    the status 500 with the store's message after the prefix
    ["Database error: "]; the query was attempted once. *)
Theorem store_failure_is_500 (b : ask_body) (st : store) (e : pystr) :
  3 <= length (body_question b) ->
  strip (body_question b) <> [] ->
  backend st = inl e ->
  post_ask b st =
    (HTTPException 500 (str "Database error: " ++ e), after_query st) /\
  status (fst (post_ask b st)) = 500.
Proof.
  intros Hlen Hq Hb. unfold post_ask, parse_AskRequest.
  destruct (length (body_question b) <? 3) eqn:E; [apply Nat.ltb_lt in E; lia|].
  by rewrite (ask_question_unavailable _ _ e).
Qed.

Lemma store_failure_is_500_witness :
  post_ask (ask_rust None) {| backend := inl (str "Database not available"); queries := [] |} =
    (HTTPException 500 (str "Database error: " ++ str "Database not available"),
     after_query {| backend := inl (str "Database not available"); queries := [] |}) /\
  status (fst (post_ask (ask_rust None)
                 {| backend := inl (str "Database not available"); queries := [] |})) = 500.
Proof.
  apply (store_failure_is_500 (ask_rust None)
           {| backend := inl (str "Database not available"); queries := [] |}
           (str "Database not available")).
  - simpl. lia.
  - vm_compute. discriminate.
  - reflexivity.
Defined.

(** ** Snippets of ranked documents *)

Lemma is_alnum_not_space c : is_alnum c = true -> is_space c = false.
Proof. by_cases_on_char c. Qed.

Lemma maximal_runs_occurs text runs w :
  maximal_runs text runs -> In w runs -> exists a b, text = a ++ w ++ b.
Proof.
  induction 1 as [|sep run rest runs _ _ _ _ _ IH]; [done|].
  intros [->|Hw].
  - by exists sep, rest.
  - destruct (IH Hw) as (a & b & ->).
    exists (sep ++ run ++ a), b. by rewrite <- !app_assoc.
Qed.

Lemma token_occurs text t :
  In t (tokenize text) ->
  exists w a b, text = a ++ w ++ b /\ token_like w /\ t = lower w.
Proof.
  unfold tokenize. rewrite in_map_iff. intros (w & <- & Hw).
  assert (Hr : maximal_runs text (findall_alnum text))
    by (by apply maximal_runs_findall).
  destruct (maximal_runs_occurs _ _ _ Hr Hw) as (a & b & H).
  exists w, a, b. split; [done|]. split; [|done].
  pose proof (findall_alnum_token_like text) as Hall.
  rewrite List.Forall_forall in Hall. by apply Hall.
Qed.

Lemma sentences_hold_words text l :
  sentences_of text l ->
  forall a w b, text = a ++ w ++ b -> w <> [] ->
    Forall (fun c => is_space c = false) w ->
    exists s a' b', In s l /\ s = a' ++ w ++ b'.
Proof.
  induction 1 as [s _ | s gap rest l _ _ Hne Hgap _ _ IH];
    intros a w b Htext Hw Hns.
  - exists s, a, b. split; [by left|done].
  - apply app_eq_inv in Htext as [(k & -> & Hk)|(k & -> & Hk)].
    + apply app_eq_inv in Hk as [(k' & -> & Hk')|(k' & -> & Hk')].
      * destruct k' as [|c k'].
        -- exists (a ++ k), a, []. split; [by left|]. by rewrite !app_nil_r.
        -- exfalso. destruct Hgap as [|g gap Hg _]; [done|].
           injection Hk' as -> _.
           apply Forall_app in Hns as [_ Hns]. inversion Hns; subst. congruence.
      * exists (a ++ w ++ k'), a, k'. split; [by left|done].
    + apply app_eq_inv in Hk as [(k' & -> & Hk')|(k' & -> & Hk')].
      * destruct k' as [|c k'].
        -- simpl in Hk'. symmetry in Hk'.
           destruct (IH [] w b Hk' Hw Hns) as (s0 & a' & b' & Hin & Hs0).
           exists s0, a', b'. split; [by right|done].
        -- exfalso. destruct w as [|c' w]; [done|].
           injection Hk' as -> _.
           apply Forall_app in Hgap as [_ Hgap]. inversion Hgap; subst.
           inversion Hns; subst. congruence.
      * destruct (IH k' w b Hk' Hw Hns) as (s0 & a' & b' & Hin & Hs0).
        exists s0, a', b'. split; [by right|done].
Qed.

Lemma strip_nil_blank s : strip s = [] -> Forall (fun c => is_space c = true) s.
Proof.
  intros E. destruct (strip_split s) as (ws1 & ws2 & Hs & H1 & H2).
  rewrite Hs, E. simpl. by apply Forall_app.
Qed.

Lemma mentions_nonblank q_terms s :
  Forall token_like q_terms -> mentions q_terms s = true -> strip s <> [].
Proof.
  intros Hq Hm E. apply mentions_spec in Hm as (t & a & b & Hin & Hs).
  rewrite List.Forall_forall in Hq. destruct (Hq t Hin) as [Hne Ht].
  destruct t as [|c t]; [done|]. inversion Ht as [|? ? Hc _]; subst.
  apply strip_nil_blank in E.
  assert (Hlow : Forall (fun c => is_space c = true) (lower s)).
  { unfold lower. apply Forall_map. eapply Forall_impl; [exact E|].
    intros x Hx. simpl. by rewrite is_space_lower_char. }
  rewrite Hs in Hlow. apply Forall_app in Hlow as [_ Hlow].
  inversion Hlow as [|? ? Hsp _]; subst.
  apply is_alnum_not_space in Hc. congruence.
Qed.

Lemma shared_token_sentence q_tokens text t :
  In t q_tokens -> In t (tokenize text) ->
  exists s, In s (split_sentences text) /\ mentions q_tokens s = true.
Proof.
  intros Hq Ht. apply token_occurs in Ht as (w & a & b & Htext & [Hne Hw] & ->).
  assert (Hsent : sentences_of text (split_sentences text))
    by (by apply sentences_of_split).
  destruct (sentences_hold_words _ _ Hsent a w b Htext Hne) as (s & a' & b' & Hin & Hs).
  { eapply Forall_impl; [exact Hw|]. intros c. apply is_alnum_not_space. }
  exists s. split; [done|]. apply mentions_spec.
  exists (lower w), (lower a'), (lower b'). split; [done|].
  by rewrite Hs, !lower_app.
Qed.

Lemma join_cons_head sep c x ps :
  exists tl, join sep ((c :: x) :: ps) = c :: tl.
Proof. destruct ps; simpl; eauto. Qed.

(** X16.  A document that scores above zero always yields a snippet made
    of its sentences: some sentence holds a shared token, so the selection
    is not empty, the snippet is the join of the selected sentences cut to
    600 characters, it is not empty, and the raw-content fallback is not
    what a cited document gets. *)
Theorem ranked_document_snippet (q : pystr) (d : doc) :
  0 < doc_score (tokenize q) d ->
  select_go (tokenize q) 600 [] (split_sentences (get_content d)) <> [] /\
  extract_snippets (get_content d) (tokenize q) 600 =
    take 600 (join (str " ")
                (select_go (tokenize q) 600 [] (split_sentences (get_content d)))) /\
  extract_snippets (get_content d) (tokenize q) 600 <> [].
Proof.
  intros Hpos. rewrite doc_score_overlap in Hpos.
  apply overlap_pos in Hpos as (t & Hq & Ht).
  destruct (shared_token_sentence _ _ _ Hq Ht) as (s & Hin & Hm).
  set (sentences := split_sentences (get_content d)) in *.
  assert (Hf : In s (List.filter (mentions (tokenize q)) sentences))
    by (by apply filter_In).
  destruct (List.filter (mentions (tokenize q)) sentences) as [|s0 rest] eqn:E;
    [done|].
  assert (Hs0 : mentions (tokenize q) s0 = true).
  { assert (H0 : In s0 (List.filter (mentions (tokenize q)) sentences))
      by (rewrite E; by left).
    by apply filter_In in H0 as [_ ?]. }
  apply mentions_nonblank in Hs0; [|apply tokenize_token_like].
  unfold extract_snippets. fold sentences.
  rewrite select_go_accumulate by apply Nat.le_0_l. rewrite E.
  cbn [app map accumulate].
  destruct (strip s0) as [|c x]; [done|].
  split; [done|]. split; [done|].
  destruct (join_cons_head (str " ") c x
              (if 600 <? total_len [] + length (c :: x) then []
               else accumulate 600 (total_len [] + length (c :: x))
                      (map strip rest))) as (tl & ->).
  done.
Qed.

Lemma ranked_document_snippet_witness :
  select_go (tokenize (str "what is rust")) 600 []
            (split_sentences (get_content rust_book)) <> [] /\
  extract_snippets (get_content rust_book) (tokenize (str "what is rust")) 600 =
    take 600 (join (str " ")
                (select_go (tokenize (str "what is rust")) 600 []
                           (split_sentences (get_content rust_book)))) /\
  extract_snippets (get_content rust_book) (tokenize (str "what is rust")) 600 <> [].
Proof.
  apply (ranked_document_snippet (str "what is rust") rust_book).
  vm_compute. lia.
Defined.

(** ** Whitespace normalisation of ingested text *)

Lemma concat_tokenize_emit cur :
  concat (map tokenize (emit cur)) = tokenize (rev cur).
Proof. destruct cur; [done|]. cbn [emit map concat]. by rewrite app_nil_r. Qed.

Lemma tokenize_split_ws_go cur t :
  tokenize (rev cur ++ t) = concat (map tokenize (split_ws_go cur t)).
Proof.
  revert cur. induction t as [|c t IH]; intros cur; cbn [split_ws_go].
  - by rewrite app_nil_r, concat_tokenize_emit.
  - destruct (is_space c) eqn:Hc.
    + unfold tokenize at 1, findall_alnum.
      rewrite findall_go_app_sep by (by apply is_space_not_alnum).
      rewrite map_app, map_app, concat_app, concat_tokenize_emit.
      f_equal. apply (IH []).
    + rewrite <- (IH (c :: cur)). simpl. by rewrite <- app_assoc.
Qed.

Lemma tokenize_join_words ws :
  tokenize (join (str " ") ws) = concat (map tokenize ws).
Proof.
  induction ws as [|w ws IH]; [done|].
  destruct ws as [|w' ws].
  - simpl. by rewrite app_nil_r.
  - change (join (str " ") (w :: w' :: ws))
      with (w ++ " "%char :: join (str " ") (w' :: ws)).
    unfold tokenize at 1, findall_alnum.
    rewrite findall_go_app_sep by done. rewrite map_app.
    cbn [map concat]. f_equal. exact IH.
Qed.

Lemma tokenize_normalize_whitespace raw :
  tokenize (normalize_whitespace raw) = tokenize raw.
Proof.
  unfold normalize_whitespace, split_ws.
  by rewrite tokenize_join_words, <- tokenize_split_ws_go.
Qed.

(** X17.  Normalising the white space of a page does not change its
    tokens, so a stored document scores, for any question, exactly as the
    text of the page would. *)
Theorem normalize_whitespace_keeps_tokens (raw : pystr) (q_tokens : list pystr) :
  tokenize (normalize_whitespace raw) = tokenize raw /\
  tf_score q_tokens (Counter (tokenize (normalize_whitespace raw))) =
  tf_score q_tokens (Counter (tokenize raw)).
Proof. by rewrite tokenize_normalize_whitespace. Qed.

Lemma emit_word_like cur :
  Forall (fun c => is_space c = false) cur -> Forall word_like (emit cur).
Proof.
  destruct cur as [|c cur]; [constructor|]. intros H.
  constructor; [|constructor]. split.
  - apply rev_cons_not_nil.
  - by apply Forall_rev.
Qed.

Lemma split_ws_go_word_like cur t :
  Forall (fun c => is_space c = false) cur ->
  Forall word_like (split_ws_go cur t).
Proof.
  revert cur. induction t as [|c t IH]; intros cur Hcur; cbn [split_ws_go].
  - by apply emit_word_like.
  - destruct (is_space c) eqn:Hc.
    + apply Forall_app. split; [by apply emit_word_like|]. apply IH. constructor.
    + apply IH. by constructor.
Qed.

Lemma split_ws_word_like t : Forall word_like (split_ws t).
Proof. apply split_ws_go_word_like. constructor. Qed.

Lemma split_ws_go_word w cur rest :
  Forall (fun c => is_space c = false) w ->
  split_ws_go cur (w ++ rest) = split_ws_go (rev w ++ cur) rest.
Proof.
  intros H. revert cur. induction H as [|c w Hc _ IH]; intros cur; [done|].
  simpl. rewrite Hc, IH. by rewrite <- app_assoc.
Qed.

Lemma split_ws_join ws :
  Forall word_like ws -> split_ws (join (str " ") ws) = ws.
Proof.
  unfold split_ws. induction 1 as [|w ws [Hne Hw] Hws IH]; [done|].
  destruct ws as [|w' ws].
  - cbn [join]. rewrite <- (app_nil_r w) at 1.
    rewrite split_ws_go_word, app_nil_r by done. simpl. by rewrite emit_rev.
  - change (join (str " ") (w :: w' :: ws))
      with (w ++ " "%char :: join (str " ") (w' :: ws)).
    rewrite split_ws_go_word, app_nil_r by done.
    cbn [split_ws_go]. change (is_space " ") with true. cbn iota.
    by rewrite emit_rev, IH.
Qed.

Lemma word_like_last w :
  word_like w -> exists a' x, w = a' ++ [x] /\ is_space x = false.
Proof.
  intros [Hne Hw]. destruct w as [|x w _] using rev_ind; [done|].
  exists w, x. split; [done|]. apply Forall_app in Hw as [_ Hw]. by inversion Hw.
Qed.

Lemma join_words_head w ws :
  Forall word_like (w :: ws) ->
  exists y b', join (str " ") (w :: ws) = y :: b' /\ is_space y = false.
Proof.
  intros H. inversion H as [|? ? [Hne Hw] _]; subst.
  destruct w as [|y w]; [done|].
  destruct (join_cons_head (str " ") y w ws) as (tl & ->).
  exists y, tl. split; [done|]. by inversion Hw.
Qed.

Lemma join_words_spaces ws :
  Forall word_like ws ->
  forall a c b, join (str " ") ws = a ++ c :: b -> is_space c = true ->
    c = " "%char /\
    (exists a' x, a = a' ++ [x] /\ is_space x = false) /\
    (exists y b', b = y :: b' /\ is_space y = false).
Proof.
  induction 1 as [|w ws Hword Hws IH]; intros a c b Heq Hc.
  - by destruct a.
  - assert (Hin : forall u v, w = u ++ c :: v -> False).
    { intros u v ->. destruct Hword as [_ Hw]. apply Forall_app in Hw as [_ Hw].
      inversion Hw; subst. congruence. }
    destruct ws as [|w' ws].
    + cbn [join] in Heq. exfalso. by apply (Hin a b).
    + change (join (str " ") (w :: w' :: ws))
        with (w ++ " "%char :: join (str " ") (w' :: ws)) in Heq.
      assert (Hgood : c :: b = " "%char :: join (str " ") (w' :: ws) ->
                c = " "%char /\
                (exists a' x, w = a' ++ [x] /\ is_space x = false) /\
                (exists y b', b = y :: b' /\ is_space y = false)).
      { intros [= -> ->]. split; [done|]. split.
        - by apply word_like_last.
        - by apply join_words_head. }
      apply app_eq_inv in Heq as [(k & Hwk & Hk)|(k & Hak & Hk)].
      * destruct k as [|x k].
        -- rewrite app_nil_r in Hwk. subst a. by apply Hgood.
        -- exfalso. injection Hk as <- _. by apply (Hin a k).
      * destruct k as [|x k].
        -- rewrite app_nil_r in Hak. subst a. apply Hgood. by simpl in Hk.
        -- injection Hk as <- Hk. subst a.
           destruct (IH k c b Hk Hc) as (-> & (a' & x & -> & Hx) & Hb).
           split; [done|]. split; [|done].
           exists (w ++ " "%char :: a'), x. split; [|done].
           by rewrite <- app_assoc.
Qed.

Lemma join_words_last w ws :
  Forall word_like (w :: ws) ->
  exists a x, join (str " ") (w :: ws) = a ++ [x] /\ is_space x = false.
Proof.
  revert w. induction ws as [|w' ws IH]; intros w H.
  - inversion H; subst. by apply word_like_last.
  - inversion H as [|? ? _ H']; subst.
    destruct (IH w' H') as (a & x & E & Hx).
    exists (w ++ " "%char :: a), x. split; [|done].
    change (join (str " ") (w :: w' :: ws))
      with (w ++ " "%char :: join (str " ") (w' :: ws)).
    rewrite E. by rewrite <- app_assoc.
Qed.

Lemma strip_join_words ws :
  Forall word_like ws -> strip (join (str " ") ws) = join (str " ") ws.
Proof.
  intros H. destruct ws as [|w ws]; [done|].
  destruct (join_words_head w ws H) as (y & b' & Ehead & Hy).
  destruct (join_words_last w ws H) as (a & x & Elast & Hx).
  unfold strip, rstrip.
  assert (El : lstrip (join (str " ") (w :: ws)) = join (str " ") (w :: ws)).
  { rewrite Ehead. simpl. by rewrite Hy. }
  rewrite El, Elast, rev_app_distr. simpl. rewrite Hx.
  change (x :: rev a) with (rev [x] ++ rev a).
  by rewrite <- rev_app_distr, rev_involutive.
Qed.

Lemma split_ws_go_nil cur t :
  split_ws_go cur t = [] -> cur = [] /\ Forall (fun c => is_space c = true) t.
Proof.
  revert cur. induction t as [|c t IH]; intros cur; cbn [split_ws_go].
  - destruct cur; [done|discriminate].
  - destruct (is_space c) eqn:Hc.
    + intros H. apply app_eq_nil in H as [Hcur Ht].
      apply IH in Ht as [_ Ht]. split; [by destruct cur|by constructor].
    + intros H. by apply IH in H as [? _].
Qed.

Lemma split_ws_blank t :
  Forall (fun c => is_space c = true) t -> split_ws t = [].
Proof.
  unfold split_ws. induction 1 as [|c t Hc _ IH]; [done|].
  cbn [split_ws_go]. by rewrite Hc.
Qed.

(** X18.  The stored content is in normal form: normalising it again
    changes nothing, it has no white space at either end, every white-space
    character in it is a single plain space standing between two other
    characters, and it is empty exactly when the page text is blank. *)
Theorem normalize_whitespace_normal_form (raw : pystr) :
  normalize_whitespace (normalize_whitespace raw) = normalize_whitespace raw /\
  strip (normalize_whitespace raw) = normalize_whitespace raw /\
  (forall a c b, normalize_whitespace raw = a ++ c :: b -> is_space c = true ->
     c = " "%char /\
     (exists a' x, a = a' ++ [x] /\ is_space x = false) /\
     (exists y b', b = y :: b' /\ is_space y = false)) /\
  (normalize_whitespace raw = [] <-> Forall (fun c => is_space c = true) raw).
Proof.
  pose proof (split_ws_word_like raw) as Hw.
  split; [|split; [|split]].
  - unfold normalize_whitespace. by rewrite split_ws_join.
  - by apply strip_join_words.
  - by apply join_words_spaces.
  - unfold normalize_whitespace. split.
    + intros E. destruct (split_ws raw) as [|w ws] eqn:Es.
      * by apply split_ws_go_nil in Es as [_ ?].
      * destruct (join_words_head w ws Hw) as (y & b' & Ey & _). congruence.
    + intros H. by rewrite split_ws_blank.
Qed.

(** ** Ingestion *)

(** X19.  Ingestion is all or nothing: a response that is an error leaves
    the store exactly as it was.  The error is a 400 carrying the fetch
    error when the page could not be fetched (the store is then not even
    contacted), and a 500 carrying the store's error when the page was
    fetched but the store raised. *)
Theorem ingest_error_leaves_store
    (payload : IngestRequest) (fetched : pystr + page) (new_id : pystr)
    (st st' : store) (code : nat) (detail : pystr) :
  ingest_resource payload fetched new_id st = (IngestError code detail, st') ->
  st' = st /\
  ((code = 400 /\ exists e, fetched = inl e /\
                            detail = str "Failed to fetch URL: " ++ e) \/
   (code = 500 /\ exists pg e, fetched = inr pg /\ backend st = inl e /\
                               detail = str "Database error: " ++ e)).
Proof.
  unfold ingest_resource, create_document.
  destruct fetched as [e|pg].
  - intros [= <- <- <-]. split; [done|]. left. split; [done|]. by exists e.
  - destruct (backend st) as [e|m] eqn:Hb; [|done].
    intros [= <- <- <-]. split; [done|]. right. split; [done|]. by exists pg, e.
Qed.

Lemma ingest_error_leaves_store_witness :
  two_rust_docs = two_rust_docs /\
  ((400 = 400 /\ exists e, @inl pystr page (str "timed out") = inl e /\
       str "Failed to fetch URL: " ++ str "timed out" =
       str "Failed to fetch URL: " ++ e) \/
   (400 = 500 /\ exists pg e, @inl pystr page (str "timed out") = inr pg /\
       backend two_rust_docs = inl e /\
       str "Failed to fetch URL: " ++ str "timed out" =
       str "Database error: " ++ e)).
Proof.
  apply (ingest_error_leaves_store
           {| req_url := str "https://example.org/"; req_title := None;
              req_tags := None |}
           (inl (str "timed out")) (str "65f0c0fff1") two_rust_docs).
  reflexivity.
Defined.

Lemma resources_after_create m d new_id queries0 :
  resources
    (snd (create_document "resource" d new_id
            {| backend := inr m; queries := queries0 |})) =
  collection m "resource" ++
    [{| _id := Some new_id; title := title d; url := url d;
        content := content d; tags := tags d |}].
Proof.
  unfold create_document, resources, collection. simpl.
  by rewrite lookup_insert_eq.
Qed.

(** X20.  A successful ingestion adds exactly one document to the
    collection ["resource"] and touches nothing else: the document carries
    the identifier that is returned, the chosen title, the URL, the
    normalised text and the tags (none when the request has none); the
    length reported is the length of the stored content; the other
    collections and the query history are unchanged. *)
Theorem ingest_stores_document
    (payload : IngestRequest) (pg : page) (new_id : pystr) (st : store)
    (m : gmap string (list doc)) :
  backend st = inr m ->
  let stored :=
    {| _id := Some new_id; title := Some (choose_title payload pg);
       url := Some (req_url payload);
       content := Some (normalize_whitespace (page_text pg));
       tags := default [] (req_tags payload) |} in
  let result := ingest_resource payload (inr pg) new_id st in
  fst result = IngestOk new_id (choose_title payload pg)
                 (length (get_content stored)) /\
  Permutation (resources (snd result)) (stored :: resources st) /\
  (forall m', backend (snd result) = inr m' ->
     forall name, name <> "resource"%string -> m' !! name = m !! name) /\
  queries (snd result) = queries st.
Proof.
  intros Hb stored result. unfold result, ingest_resource, create_document.
  rewrite Hb. cbn [fst snd]. split; [done|]. split; [|split; [|done]].
  - unfold resources at 1. cbn [backend]. unfold collection at 1.
    rewrite lookup_insert_eq. cbn [default]. unfold resources. rewrite Hb.
    symmetry. apply Permutation_cons_append.
  - cbn [backend]. intros m' [= <-] name Hname.
    by rewrite lookup_insert_ne.
Qed.

Lemma ingest_stores_document_witness :
  let payload := {| req_url := str "https://example.org/"; req_title := None;
                    req_tags := None |} in
  let pg := {| page_text := str "  Rust   is fast. "; page_title := Some (str " Rust ") |} in
  let stored :=
    {| _id := Some (str "65f0c0fff1"); title := Some (choose_title payload pg);
       url := Some (req_url payload);
       content := Some (normalize_whitespace (page_text pg));
       tags := default [] (req_tags payload) |} in
  let result := ingest_resource payload (inr pg) (str "65f0c0fff1") two_rust_docs in
  fst result = IngestOk (str "65f0c0fff1") (choose_title payload pg)
                 (length (get_content stored)) /\
  Permutation (resources (snd result)) (stored :: resources two_rust_docs) /\
  (forall m', backend (snd result) = inr m' ->
     forall name, name <> "resource"%string ->
       m' !! name = ({[ "resource"%string := [rust_book; rust_notes] ]} : gmap string (list doc)) !! name) /\
  queries (snd result) = queries two_rust_docs.
Proof.
  apply (ingest_stores_document
           {| req_url := str "https://example.org/"; req_title := None;
              req_tags := None |}
           {| page_text := str "  Rust   is fast. "; page_title := Some (str " Rust ") |}
           (str "65f0c0fff1") two_rust_docs
           {[ "resource"%string := [rust_book; rust_notes] ]}).
  reflexivity.
Defined.

Lemma positives_le_length q_tokens docs : positives q_tokens docs <= length docs.
Proof. unfold positives. apply List.filter_length_le. Qed.

Lemma slice_to_all {A} (l : list A) k :
  (Z.of_nat (length l) <= k)%Z -> slice_to l k = l.
Proof.
  intros H. unfold slice_to. destruct (0 <=? k)%Z eqn:E.
  - apply take_ge. lia.
  - apply Z.leb_gt in E. lia.
Qed.

Lemma sources_include_ranked q k docs s d :
  (s, d) ∈ ranked (tokenize q) docs ->
  (Z.of_nat (length docs) <= k)%Z ->
  In (normalize_source d) (sources_of (answer_from q k docs)).
Proof.
  intros Hin Hk. unfold answer_from.
  destruct docs as [|d0 docs]; [by apply ranked_entry in Hin as [? _]; inversion H|].
  destruct (score_docs (tokenize q) (d0 :: docs)) eqn:E.
  { unfold ranked in Hin. rewrite E in Hin. inversion Hin. }
  cbn [sources_of]. apply in_map. unfold select_top.
  rewrite slice_to_all.
  - apply list_elem_of_In in Hin. by apply (in_map snd) in Hin.
  - rewrite length_ranked.
    pose proof (positives_le_length (tokenize q) (d0 :: docs)). lia.
Qed.

(** X21.  What is ingested can be found: after a successful ingestion into
    a store holding fewer than 100 resources, a question that shares a
    token with the text of the page cites the new document (its
    identifier, title and URL) among its sources, provided [top_k] is at
    least the number of stored resources. *)
Theorem ingested_document_is_found
    (payload : IngestRequest) (pg : page) (new_id : pystr) (st : store)
    (m : gmap string (list doc)) (p : AskRequest) (t : pystr) :
  backend st = inr m ->
  length (resources st) < 100 ->
  strip (question p) <> [] ->
  In t (tokenize (question p)) ->
  In t (tokenize (page_text pg)) ->
  (Z.of_nat (S (length (resources st))) <= top_k p)%Z ->
  In {| source_id := Some new_id;
        source_title := Some (choose_title payload pg);
        source_url := Some (req_url payload) |}
     (sources_of
        (fst (ask_question p
                (snd (ingest_resource payload (inr pg) new_id st))))).
Proof.
  intros Hb Hlen Hq Htq Htp Hk.
  set (stored :=
    {| _id := Some new_id; title := Some (choose_title payload pg);
       url := Some (req_url payload);
       content := Some (normalize_whitespace (page_text pg));
       tags := default [] (req_tags payload) |}).
  assert (Hst : exists m',
     backend (snd (ingest_resource payload (inr pg) new_id st)) = inr m' /\
     collection m' "resource" = resources st ++ [stored]).
  { unfold ingest_resource, create_document. rewrite Hb. cbn [snd backend].
    eexists. split; [reflexivity|].
    unfold collection at 1. rewrite lookup_insert_eq. cbn [default].
    unfold resources. by rewrite Hb. }
  destruct Hst as (m' & Hb' & Hcol).
  rewrite (ask_question_available _ _ m') by done. cbn [fst].
  assert (Hcand : candidates (snd (ingest_resource payload (inr pg) new_id st))
                  = resources st ++ [stored]).
  { unfold candidates. rewrite Hb', Hcol. apply take_ge.
    rewrite length_app. simpl. lia. }
  rewrite Hcand.
  change {| source_id := Some new_id;
            source_title := Some (choose_title payload pg);
            source_url := Some (req_url payload) |}
    with (normalize_source stored).
  apply (sources_include_ranked _ _ _ (doc_score (tokenize (strip (question p))) stored)).
  - apply ranked_entry. split; [|split; [done|]].
    + apply elem_of_app. right. by left.
    + rewrite doc_score_overlap. apply overlap_pos. exists t.
      rewrite tokenize_strip. split; [done|].
      change (get_content stored) with (normalize_whitespace (page_text pg)).
      by rewrite tokenize_normalize_whitespace.
  - rewrite length_app. simpl. lia.
Qed.

Lemma ingested_document_is_found_witness :
  In {| source_id := Some (str "65f0c0fff1");
        source_title :=
          Some (choose_title
                  {| req_url := str "https://example.org/"; req_title := None;
                     req_tags := None |}
                  {| page_text := str "  Rust   is fast. ";
                     page_title := Some (str " Rust ") |});
        source_url := Some (str "https://example.org/") |}
     (sources_of
        (fst (ask_question {| question := str "what is rust"; top_k := 3 |}
                (snd (ingest_resource
                        {| req_url := str "https://example.org/";
                           req_title := None; req_tags := None |}
                        (inr {| page_text := str "  Rust   is fast. ";
                                page_title := Some (str " Rust ") |})
                        (str "65f0c0fff1") two_rust_docs))))).
Proof.
  apply (ingested_document_is_found
           {| req_url := str "https://example.org/"; req_title := None;
              req_tags := None |}
           {| page_text := str "  Rust   is fast. "; page_title := Some (str " Rust ") |}
           (str "65f0c0fff1") two_rust_docs
           {[ "resource"%string := [rust_book; rust_notes] ]}
           {| question := str "what is rust"; top_k := 3 |} (str "rust")).
  - reflexivity.
  - vm_compute. lia.
  - vm_compute. discriminate.
  - vm_compute. right. right. by left.
  - vm_compute. by left.
  - vm_compute. discriminate.
Defined.

(** X22.  The stored title: a title given in the request wins; otherwise
    the page title, stripped; otherwise the URL.  With a URL that is not
    empty, the stored title is empty in one case only: no title in the
    request and a page title made of white space. *)
Theorem choose_title_empty_iff (payload : IngestRequest) (pg : page) :
  req_url payload <> [] ->
  (choose_title payload pg = [] <->
   (req_title payload = None \/ req_title payload = Some []) /\
   exists s, page_title pg = Some s /\ s <> [] /\
             Forall (fun c => is_space c = true) s).
Proof.
  intros Hurl. unfold choose_title.
  destruct (req_title payload) as [[|c t]|].
  - destruct (page_title pg) as [[|c s]|].
    + split; [done|]. by intros (_ & s & [= <-] & ? & _).
    + split.
      * intros E. split; [by right|]. exists (c :: s).
        split; [done|]. split; [done|]. by apply strip_nil_blank.
      * intros (_ & s0 & [= <-] & _ & Hs). by apply strip_blank.
    + split; [done|]. by intros (_ & s & ? & _).
  - split; [done|]. by intros ([?|?] & _).
  - destruct (page_title pg) as [[|c s]|].
    + split; [done|]. by intros (_ & s & [= <-] & ? & _).
    + split.
      * intros E. split; [by left|]. exists (c :: s).
        split; [done|]. split; [done|]. by apply strip_nil_blank.
      * intros (_ & s0 & [= <-] & _ & Hs). by apply strip_blank.
    + split; [done|]. by intros (_ & s & ? & _).
Qed.

Lemma choose_title_empty_iff_witness :
  choose_title {| req_url := str "https://example.org/"; req_title := Some [];
                  req_tags := None |}
               {| page_text := str "text"; page_title := Some (str "  ") |} = [] <->
  (Some (@nil ascii) = None \/ Some (@nil ascii) = Some []) /\
  exists s, Some (str "  ") = Some s /\ s <> [] /\
            Forall (fun c => is_space c = true) s.
Proof.
  apply (choose_title_empty_iff
           {| req_url := str "https://example.org/"; req_title := Some [];
              req_tags := None |}
           {| page_text := str "text"; page_title := Some (str "  ") |}).
  vm_compute. discriminate.
Defined.

(** ** Sentences of ingested content *)

Lemma single_spaced_strip s : single_spaced s -> strip s = s.
Proof.
  intros H. unfold strip, rstrip.
  assert (El : lstrip s = s).
  { destruct s as [|x b]; [done|]. simpl.
    destruct (is_space x) eqn:Hx; [|done].
    destruct (H [] x b eq_refl Hx) as (_ & (a' & y & E & _) & _).
    by destruct a'. }
  rewrite El. destruct s as [|x a _] using rev_ind; [done|].
  rewrite rev_app_distr. simpl.
  destruct (is_space x) eqn:Hx.
  - destruct (H a x [] eq_refl Hx) as (_ & _ & (y & b' & E & _)). done.
  - change (x :: rev a) with (rev [x] ++ rev a).
    by rewrite <- rev_app_distr, rev_involutive.
Qed.

Lemma sentences_of_not_nil text l : sentences_of text l -> l <> [].
Proof. by destruct 1. Qed.

Lemma sentences_single_spaced text l :
  sentences_of text l -> single_spaced text ->
  join (str " ") l = text /\ Forall (fun s => strip s = s) l.
Proof.
  induction 1 as [s _ | s gap rest l _ _ Hne Hgap Hrest Hl IH]; intros Hss.
  - split; [done|]. constructor; [|constructor]. by apply single_spaced_strip.
  - destruct Hgap as [|g gap Hg Hgap]; [done|].
    destruct (Hss s g (gap ++ rest) eq_refl Hg) as (-> & _ & (y & b' & Eb & Hy)).
    destruct gap as [|g' gap].
    2:{ exfalso. injection Eb as <- _. inversion Hgap; subst. congruence. }
    simpl in *. clear Eb y b' Hy Hgap Hne.
    assert (Hs : single_spaced s).
    { intros a c b -> Hc.
      destruct (Hss a c (b ++ " "%char :: rest)) as (Hc1 & Ha & (y & b' & Eb & Hy));
        [by rewrite <- app_assoc|done|].
      split; [done|]. split; [done|].
      destruct b as [|y0 b].
      - exfalso. injection Eb as <- _. done.
      - injection Eb as <- _. by exists y0, b. }
    assert (Hr : single_spaced rest).
    { intros a c b -> Hc.
      destruct (Hss (s ++ " "%char :: a) c b) as (Hc1 & (a' & x & Ea & Hx) & Hb);
        [by rewrite <- app_assoc|done|].
      split; [done|]. split; [|done].
      destruct a as [|z a _] using rev_ind.
      - exfalso. apply app_inj_tail in Ea as [_ <-]. done.
      - exists a, z. split; [done|].
        change (s ++ " "%char :: a ++ [z]) with (s ++ (" "%char :: a) ++ [z]) in Ea.
        rewrite app_assoc in Ea. apply app_inj_tail in Ea as [_ <-]. done. }
    destruct (IH Hr) as [Hjoin Hstrip].
    split.
    + pose proof (sentences_of_not_nil _ _ Hl). destruct l as [|s' l]; [done|].
      change (join (str " ") (s :: s' :: l))
        with (s ++ " "%char :: join (str " ") (s' :: l)).
      by rewrite Hjoin.
    + constructor; [|done]. by apply single_spaced_strip.
Qed.

Lemma accumulate_all max_chars total l :
  total + total_len l <= max_chars -> accumulate max_chars total l = l.
Proof.
  revert total. induction l as [|s l IH]; intros total H; [done|].
  rewrite total_len_cons in H. cbn [accumulate].
  destruct (max_chars <? total + length s) eqn:E.
  - apply Nat.ltb_lt in E. lia.
  - f_equal. apply IH. lia.
Qed.

Lemma total_len_le_join sep l : total_len l <= length (join sep l).
Proof.
  induction l as [|x l IH]; [done|].
  rewrite total_len_cons. destruct l as [|y l].
  - cbn [join]. change (total_len []) with 0. lia.
  - change (join sep (x :: y :: l)) with (x ++ sep ++ join sep (y :: l)).
    rewrite !length_app. lia.
Qed.

Lemma filter_all {A} (f : A -> bool) l :
  Forall (fun x => f x = true) l -> List.filter f l = l.
Proof. induction 1 as [|x l Hx _ IH]; simpl; [done|]. by rewrite Hx, IH. Qed.

Lemma map_fixed {A} (f : A -> A) l :
  Forall (fun x => f x = x) l -> map f l = l.
Proof. induction 1 as [|x l Hx _ IH]; simpl; [done|]. by rewrite Hx, IH. Qed.

(** X24.  On content as ingestion stores it, sentence splitting loses
    nothing: the sentences joined by single spaces give the content back
    and stripping leaves each sentence as it is; so when the content has at
    most 600 characters and every sentence mentions a term of the question,
    the snippet is the whole content. *)
Theorem normalized_content_sentences (raw : pystr) (q_terms : list pystr) :
  let text := normalize_whitespace raw in
  join (str " ") (split_sentences text) = text /\
  Forall (fun s => strip s = s) (split_sentences text) /\
  (length text <= 600 ->
   Forall (fun s => mentions q_terms s = true) (split_sentences text) ->
   extract_snippets text q_terms 600 = text).
Proof.
  intros text.
  assert (Hss : single_spaced text).
  { exact (join_words_spaces _ (split_ws_word_like raw)). }
  assert (Hsent : sentences_of text (split_sentences text))
    by (by apply sentences_of_split).
  destruct (sentences_single_spaced _ _ Hsent Hss) as [Hjoin Hstrip].
  split; [done|]. split; [done|].
  intros Hlen Hall. rewrite extract_snippets_unfold.
  rewrite filter_all, map_fixed by done.
  rewrite accumulate_all.
  - destruct (split_sentences text) eqn:E.
    + apply take_ge. lia.
    + rewrite Hjoin. apply take_ge. lia.
  - pose proof (total_len_le_join (str " ") (split_sentences text)) as H.
    rewrite Hjoin in H. lia.
Qed.

(** ** Status of a response *)

(** X25.  The status of [/api/ask], case by case: 422 exactly when the
    question has fewer than three characters (before any stripping), 400
    when it has three or more that are all white space, 500 when the store
    raises, 200 otherwise; the store is queried, once, in the last two
    cases only. *)
Theorem ask_status (b : ask_body) (st : store) :
  status (fst (post_ask b st)) =
    (if length (body_question b) <? 3 then 422
     else match strip (body_question b) with
          | [] => 400
          | _ => match backend st with
                 | inl _ => 500
                 | inr _ => 200
                 end
          end) /\
  queries (snd (post_ask b st)) =
    (if length (body_question b) <? 3 then queries st
     else match strip (body_question b) with
          | [] => queries st
          | _ => queries st ++ [ask_query]
          end).
Proof.
  unfold post_ask, parse_AskRequest.
  destruct (length (body_question b) <? 3); [done|].
  destruct (decide (strip (body_question b) = [])) as [E|Hq].
  { rewrite ask_question_blank by done. by rewrite E. }
  destruct (backend st) as [e|m] eqn:Hb.
  - rewrite (ask_question_unavailable _ _ e) by done.
    by destruct (strip (body_question b)).
  - rewrite (ask_question_available _ _ m) by done. cbn [fst snd question].
    destruct (strip (body_question b)) as [|c q] eqn:E; [done|].
    split; [|done]. unfold answer_from.
    destruct (candidates st); [done|]. by destruct (score_docs _ _).
Qed.
